(** * Arena allocators of the Neko engine: alignment arithmetic and the pool

    Shallow embedding of [core/include/engine/custom_allocator.h].

    Conventions.
    - [size_t], [std::uint64_t] and pointers are 64-bit unsigned values: a [Z]
      in [[0, 2^64)], every arithmetic result reduced by [wrap64].
    - Memory is byte addressed; a pointer stored in memory occupies
      [sizeof_ptr = 8] consecutive bytes (little endian).
    - [neko_assert] is fail-fast: a violated assertion stops the operation
      with an error of the taxonomy of the specification. *)

From Stdlib Require Import ZArith Lia List Bool Permutation Sorted.
Import ListNotations.
Local Open Scope Z_scope.

(** ** Machine integers *)

Definition u64_modulus : Z := 2 ^ 64.

Definition wrap64 (z : Z) : Z := z mod u64_modulus.

Definition in_u64 (z : Z) : Prop := 0 <= z < u64_modulus.

Definition nullptr : Z := 0.

Definition sizeof_ptr : Z := 8.

(** ** Errors *)

Inductive AllocError : Set :=
| OutOfMemory
| InvalidAlignment
| OrderingViolation
| SizeMismatch
| UnsupportedOperation
| LeakAtTeardown.

Inductive Result (A : Type) : Type :=
| Ok (a : A)
| Fail (e : AllocError).

Arguments Ok {A} a.
Arguments Fail {A} e.

Definition bind {A B : Type} (r : Result A) (k : A -> Result B) : Result B :=
  match r with
  | Ok a => k a
  | Fail e => Fail e
  end.

Notation "x <- r ;; k" := (bind r (fun x => k))
  (at level 61, r at next level, right associativity).
Notation "r ;;; k" := (bind r (fun _ => k))
  (at level 61, right associativity).

(** Modelled from the spec: the macro [neko_assert] of [engine/assert.h],
    which is not part of the sources at hand.  Section 7 of the specification
    makes every violated assertion fail fast; the second argument is the kind
    of the taxonomy that the assertion's message stands for.  This is the
    build with assertions enabled ([NEKO_ASSERT] defined), the one in which
    [StackAllocator] has its [prevPos_] member. *)
Definition neko_assert (cond : bool) (e : AllocError) : Result unit :=
  if cond then Ok tt else Fail e.

(** ** Powers of two *)

Definition is_pow2 (a : Z) : bool := (0 <? a) && (a =? 2 ^ Z.log2 a).

(** ** [class Allocator]: the static alignment primitives *)

Module Allocator.

Definition CalculateAlignForwardAdjustment (address alignment : Z) : Result Z :=
  neko_assert (Z.land alignment (wrap64 (alignment - 1)) =? 0) InvalidAlignment ;;;
  let adjustment :=
    wrap64 (alignment - Z.land address (wrap64 (alignment - 1))) in
  if adjustment =? alignment then Ok 0 else Ok adjustment.

Definition CalculateAlignForwardAdjustmentWithHeader
    (address alignment headerSize : Z) : Result Z :=
  adjustment <- CalculateAlignForwardAdjustment address alignment ;;
  let neededSpace := headerSize in
  if adjustment <? neededSpace then
    let neededSpace := wrap64 (neededSpace - adjustment) in
    let adjustment :=
      wrap64 (adjustment + wrap64 (alignment * (neededSpace / alignment))) in
    if 0 <? neededSpace mod alignment
    then Ok (wrap64 (adjustment + alignment))
    else Ok adjustment
  else Ok adjustment.

Definition AlignForward (address alignment : Z) : Result Z :=
  adjustment <- CalculateAlignForwardAdjustment address alignment ;;
  Ok (wrap64 (address + adjustment)).

Definition AlignForwardWithHeader (address alignment headerSize : Z) : Result Z :=
  adjustment <-
    CalculateAlignForwardAdjustmentWithHeader address alignment headerSize ;;
  Ok (wrap64 (address + adjustment)).

End Allocator.

(** The header-aware adjustment before reduction to 64 bits: the plain
    adjustment, raised by whole alignments until it covers the header. *)
Definition header_adjustment_exact (address alignment headerSize : Z) : Z :=
  let a0 := (alignment - address mod alignment) mod alignment in
  if a0 <? headerSize then
    let ns := headerSize - a0 in
    if 0 <? ns mod alignment
    then a0 + alignment * (ns / alignment) + alignment
    else a0 + alignment * (ns / alignment)
  else a0.

(** The object state of [class Allocator]. *)

Record AllocatorState : Set := mkAllocator {
  start_ : Z;
  size_ : Z;
  usedMemory_ : Z;
  numAllocations_ : Z
}.

(** [Allocator(size_t size, void* start)]; the two counters keep their
    default member initialisers. *)
Definition Allocator_ctor (size start : Z) : AllocatorState :=
  {| start_ := start; size_ := size; usedMemory_ := 0; numAllocations_ := 0 |}.

(** [virtual ~Allocator()] *)
Definition Allocator_dtor (a : AllocatorState) : Result AllocatorState :=
  neko_assert ((numAllocations_ a =? 0) && (usedMemory_ a =? 0)) LeakAtTeardown ;;;
  Ok {| start_ := nullptr; size_ := 0;
        usedMemory_ := usedMemory_ a; numAllocations_ := numAllocations_ a |}.

Definition GetUsedMemory (a : AllocatorState) : Z := usedMemory_ a.
Definition GetStart (a : AllocatorState) : Z := start_ a.
Definition GetSize (a : AllocatorState) : Z := size_ a.

(** ** Memory

    [bytes] maps an address to the byte stored there.  [stores] is a ghost
    log: the addresses of the pointer-sized stores performed so far, most
    recent first.  It is never read by the program. *)

Record Heap : Type := mkHeap {
  bytes : Z -> Z;
  stores : list Z
}.

Fixpoint le_bytes (n : nat) (v : Z) : list Z :=
  match n with
  | O => []
  | S n' => v mod 256 :: le_bytes n' (v / 256)
  end.

Fixpoint le_value (l : list Z) : Z :=
  match l with
  | [] => 0
  | b :: l' => b + 256 * le_value l'
  end.

Fixpoint write_bytes (m : Z -> Z) (a : Z) (l : list Z) : Z -> Z :=
  match l with
  | [] => m
  | b :: l' => write_bytes (fun x => if x =? a then b else m x) (a + 1) l'
  end.

Fixpoint read_bytes (m : Z -> Z) (a : Z) (n : nat) : list Z :=
  match n with
  | O => []
  | S n' => m a :: read_bytes m (a + 1) n'
  end.

(** [*(void** )a = v] and [*(void** )a]. *)
Definition store_ptr (h : Heap) (a v : Z) : Heap :=
  {| bytes := write_bytes (bytes h) a (le_bytes 8 v); stores := a :: stores h |}.

Definition load_ptr (h : Heap) (a : Z) : Z :=
  le_value (read_bytes (bytes h) a 8).

(** The pointer-sized store at [a] lies inside the arena [(mem, size)]. *)
Definition store_in_arena (mem size a : Z) : Prop :=
  mem <= a /\ a + sizeof_ptr <= mem + size.

(** ** [template<typename T> class PoolAllocator] *)

(** What the pool uses of its element type [T]. *)
Record ElementShape : Set := mkShape {
  sizeofT : Z;
  alignofT : Z
}.

Module PoolAllocator.

(** [static_assert(sizeof(T) >= sizeof(void* ))]: the class template has an
    instance only for the shapes that pass. *)
Definition static_assert_ok (T : ElementShape) : bool :=
  sizeof_ptr <=? sizeofT T.

Definition instantiate (T : ElementShape) : option ElementShape :=
  if static_assert_ok T then Some T else None.

Record t : Set := mkPool {
  base : AllocatorState;
  freeBlocks_ : Z
}.

(** A pool object together with the memory it threads its list through. *)
Definition state : Type := t * Heap.

Definition numObjects (T : ElementShape) (size adjustment : Z) : Z :=
  wrap64 (size - adjustment) / sizeofT T.

(** The body of the constructor's [for] loop, run [n] times. *)
Fixpoint thread (T : ElementShape) (n : nat) (h : Heap) (freeBlock : Z)
  : Heap * Z :=
  match n with
  | O => (h, freeBlock)
  | S n' =>
      let h' := store_ptr h freeBlock (wrap64 (freeBlock + sizeofT T)) in
      thread T n' h' (load_ptr h' freeBlock)
  end.

(** The loop [for (size_t i = 0; i < numObjects - 1; i++)] runs
    [numObjects - 1] times, the subtraction taken in [size_t]. *)
Definition iterations (n : Z) : nat := Z.to_nat (wrap64 (n - 1)).

Definition ctor (T : ElementShape) (size mem : Z) (h : Heap) : Result state :=
  adjustment <- Allocator.CalculateAlignForwardAdjustment mem (alignofT T) ;;
  let freeBlocks := wrap64 (mem + adjustment) in
  let n := numObjects T size adjustment in
  let '(h1, freeBlock) := thread T (iterations n) h freeBlocks in
  let h2 := store_ptr h1 freeBlock nullptr in
  Ok ({| base := Allocator_ctor size mem; freeBlocks_ := freeBlocks |}, h2).

Definition Allocate (T : ElementShape) (s : state) (allocatedSize alignment : Z)
  : Result Z * state :=
  let '(a, h) := s in
  match neko_assert ((allocatedSize =? sizeofT T) && (alignment =? alignofT T))
                    SizeMismatch with
  | Fail e => (Fail e, s)
  | Ok _ =>
      match (if freeBlocks_ a =? nullptr
             then neko_assert false OutOfMemory else Ok tt) with
      | Fail e => (Fail e, s)
      | Ok _ =>
          let p := freeBlocks_ a in
          (Ok p,
           ({| base :=
                 {| start_ := start_ (base a);
                    size_ := size_ (base a);
                    usedMemory_ := wrap64 (usedMemory_ (base a) + allocatedSize);
                    numAllocations_ := wrap64 (numAllocations_ (base a) + 1) |};
               freeBlocks_ := load_ptr h (freeBlocks_ a) |}, h))
      end
  end.

Definition Deallocate (T : ElementShape) (s : state) (p : Z) : state :=
  let '(a, h) := s in
  let freeBlock := p in
  let h' := store_ptr h freeBlock (freeBlocks_ a) in
  ({| base :=
        {| start_ := start_ (base a);
           size_ := size_ (base a);
           usedMemory_ := wrap64 (usedMemory_ (base a) - sizeofT T);
           numAllocations_ := wrap64 (numAllocations_ (base a) - 1) |};
      freeBlocks_ := freeBlock |}, h').

(** [~PoolAllocator()], followed by the destructor of the base class. *)
Definition dtor (a : t) : Result t :=
  let a' := {| base := base a; freeBlocks_ := nullptr |} in
  b <- Allocator_dtor (base a') ;;
  Ok {| base := b; freeBlocks_ := freeBlocks_ a' |}.

(** The declaration [PoolAllocator<T> pool(size, mem)] in a program: [None]
    when the class template has no instance for [T] (the [static_assert]
    fails and the program is refused by the compiler), otherwise what the
    constructor does. *)
Definition construct (T : ElementShape) (size mem : Z) (h : Heap)
  : option (Result state) :=
  match instantiate T with
  | Some T' => Some (ctor T' size mem h)
  | None => None
  end.

(** *** Client traces *)

(** [n] calls [Allocate(sizeof(T), alignof(T))] in a row; stops at the first
    failure. *)
Fixpoint Allocate_n (T : ElementShape) (n : nat) (s : state)
  : Result (list Z) * state :=
  match n with
  | O => (Ok [], s)
  | S n' =>
      match Allocate T s (sizeofT T) (alignofT T) with
      | (Ok p, s') =>
          match Allocate_n T n' s' with
          | (Ok ps, s'') => (Ok (p :: ps), s'')
          | (Fail e, s'') => (Fail e, s'')
          end
      | (Fail e, s') => (Fail e, s')
      end
  end.

(** [Deallocate] on each pointer of [ps], in that order. *)
Definition Deallocate_all (T : ElementShape) (ps : list Z) (s : state) : state :=
  fold_left (Deallocate T) ps s.

Inductive Op : Set :=
| OpAllocate
| OpDeallocate (p : Z).

(** A trace of successful [Allocate] calls and of [Deallocate] calls on
    pointers that are live, from the state [s] with live pointers [live];
    [None] for any other trace. *)
Fixpoint run (T : ElementShape) (ops : list Op) (s : state) (live : list Z)
  : option (state * list Z) :=
  match ops with
  | [] => Some (s, live)
  | OpAllocate :: ops' =>
      match Allocate T s (sizeofT T) (alignofT T) with
      | (Ok p, s') => run T ops' s' (p :: live)
      | (Fail _, _) => None
      end
  | OpDeallocate p :: ops' =>
      if existsb (Z.eqb p) live
      then run T ops' (Deallocate T s p) (remove Z.eq_dec p live)
      else None
  end.

Definition count_allocs (ops : list Op) : Z :=
  Z.of_nat (length (filter (fun o => match o with OpAllocate => true | _ => false end) ops)).

Definition count_deallocs (ops : list Op) : Z :=
  Z.of_nat (length (filter (fun o => match o with OpDeallocate _ => true | _ => false end) ops)).

(** The free list as memory holds it: follow [next] from [head] until
    [nullptr], at most [fuel] blocks. *)
Fixpoint free_list (fuel : nat) (h : Heap) (head : Z) : list Z :=
  match fuel with
  | O => []
  | S fuel' =>
      if head =? nullptr then []
      else head :: free_list fuel' h (load_ptr h head)
  end.

End PoolAllocator.

(** The addresses of [n] consecutive slots of [T] from [b] on. *)
Definition slots (T : ElementShape) (b : Z) (n : nat) : list Z :=
  map (fun i => b + Z.of_nat i * sizeofT T) (seq 0 n).

(** [head] points to a null-terminated chain through exactly the blocks [l]. *)
Fixpoint lseg (h : Heap) (head : Z) (l : list Z) : Prop :=
  match l with
  | [] => head = nullptr
  | a :: l' => head = a /\ a <> nullptr /\ lseg h (load_ptr h a) l'
  end.

(** An element type the pool can be instantiated with: a pointer fits (the
    [static_assert]), and the alignment is a power of two. *)
Definition wf_shape (T : ElementShape) : Prop :=
  sizeof_ptr <= sizeofT T /\ in_u64 (sizeofT T) /\
  in_u64 (alignofT T) /\ is_pow2 (alignofT T) = true.

(** In C++ the size of a type is a multiple of its alignment. *)
Definition size_multiple_of_alignment (T : ElementShape) : Prop :=
  sizeofT T mod alignofT T = 0.

(** An arena: not at the null address, and inside the address space. *)
Definition valid_arena (mem size : Z) : Prop :=
  0 < mem < u64_modulus /\ 0 <= size /\ mem + size <= u64_modulus.

(** ** The other strategies: object state and destructors *)

Record LinearAllocator : Set := mkLinear {
  linear_base : AllocatorState;
  linear_currentPos_ : Z
}.

Record StackAllocator : Set := mkStack {
  stack_base : AllocatorState;
  stack_currentPos_ : Z;
  stack_prevPos_ : Z
}.

Record FreeListAllocator : Set := mkFreeList {
  freelist_base : AllocatorState;
  freelist_freeBlocks_ : Z
}.

(** [ProxyAllocator] adds one member to its [Allocator] sub-object: the
    reference [allocator_].  The object it refers to is not part of the proxy;
    see [World] below. *)
Record ProxyAllocator : Set := mkProxy {
  proxy_base : AllocatorState
}.

Inductive AnyAllocator : Set :=
| Linear (a : LinearAllocator)
| Stack (a : StackAllocator)
| FreeList (a : FreeListAllocator)
| Pool (a : PoolAllocator.t)
| Proxy (a : ProxyAllocator).

Definition base_of (a : AnyAllocator) : AllocatorState :=
  match a with
  | Linear a => linear_base a
  | Stack a => stack_base a
  | FreeList a => freelist_base a
  | Pool a => PoolAllocator.base a
  | Proxy a => proxy_base a
  end.

(** [~LinearAllocator()], [~StackAllocator()], [~FreeListAllocator()] and
    [~ProxyAllocator()]: the body of the destructor, then [~Allocator()]. *)
Definition LinearAllocator_dtor (a : LinearAllocator) : Result LinearAllocator :=
  let a' := {| linear_base := linear_base a; linear_currentPos_ := nullptr |} in
  b <- Allocator_dtor (linear_base a') ;;
  Ok {| linear_base := b; linear_currentPos_ := linear_currentPos_ a' |}.

Definition StackAllocator_dtor (a : StackAllocator) : Result StackAllocator :=
  let a' := {| stack_base := stack_base a; stack_currentPos_ := nullptr;
               stack_prevPos_ := nullptr |} in
  b <- Allocator_dtor (stack_base a') ;;
  Ok {| stack_base := b; stack_currentPos_ := stack_currentPos_ a';
        stack_prevPos_ := stack_prevPos_ a' |}.

Definition FreeListAllocator_dtor (a : FreeListAllocator)
  : Result FreeListAllocator :=
  let a' := {| freelist_base := freelist_base a;
               freelist_freeBlocks_ := nullptr |} in
  b <- Allocator_dtor (freelist_base a') ;;
  Ok {| freelist_base := b; freelist_freeBlocks_ := freelist_freeBlocks_ a' |}.

Definition ProxyAllocator_dtor (a : ProxyAllocator) : Result ProxyAllocator :=
  b <- Allocator_dtor (proxy_base a) ;;
  Ok {| proxy_base := b |}.

(** Destruction of an allocator through its virtual destructor. *)
Definition destroy (a : AnyAllocator) : Result AnyAllocator :=
  match a with
  | Linear a => a' <- LinearAllocator_dtor a ;; Ok (Linear a')
  | Stack a => a' <- StackAllocator_dtor a ;; Ok (Stack a')
  | FreeList a => a' <- FreeListAllocator_dtor a ;; Ok (FreeList a')
  | Pool a => a' <- PoolAllocator.dtor a ;; Ok (Pool a')
  | Proxy a => a' <- ProxyAllocator_dtor a ;; Ok (Proxy a')
  end.

(** ** [class ProxyAllocator] *)

(** The virtual interface of [Allocator], over the state [S] an implementation
    needs. *)
Class AllocatorImpl (S : Type) : Type := {
  impl_base : S -> AllocatorState;
  impl_Allocate : S -> Z -> Z -> Result Z * S;
  impl_Deallocate : S -> Z -> S
}.

#[export] Instance PoolImpl (T : ElementShape) : AllocatorImpl PoolAllocator.state := {
  impl_base := fun s => PoolAllocator.base (fst s);
  impl_Allocate := PoolAllocator.Allocate T;
  impl_Deallocate := PoolAllocator.Deallocate T
}.

(** A proxy and the allocator its reference [allocator_] designates.  The
    wrapped allocator is one shared object: calls made directly on it and
    calls made through the proxy act on the same [referent]. *)
Record World (S : Type) : Type := mkWorld {
  self : ProxyAllocator;
  referent : S
}.

Arguments mkWorld {S} self referent.
Arguments self {S} w.
Arguments referent {S} w.

Module Proxy.

Section Wrapped.

Context {S : Type} `{AllocatorImpl S}.

(** [explicit ProxyAllocator(Allocator& allocator)] *)
Definition ctor (allocator : S) : World S :=
  {| self := {| proxy_base :=
                  Allocator_ctor (GetSize (impl_base allocator))
                                 (GetStart (impl_base allocator)) |};
     referent := allocator |}.

(** Modelled from the spec: the bodies of [ProxyAllocator::Allocate] and
    [ProxyAllocator::Deallocate], which the header only declares.  Section 4.6
    of the specification: they forward verbatim to the wrapped allocator;
    section 8: they "mutate only the wrapped allocator's state, never a
    separate copy", so the proxy object is left as it is.  This is one pair
    of bodies that forwards; see [forwards] below for all of them. *)
Definition Allocate (w : World S) (allocatedSize alignment : Z)
  : Result Z * World S :=
  let '(r, s') := impl_Allocate (referent w) allocatedSize alignment in
  (r, {| self := self w; referent := s' |}).

Definition Deallocate (w : World S) (p : Z) : World S :=
  {| self := self w; referent := impl_Deallocate (referent w) p |}.

(** The inherited, non-virtual accessors, called on the proxy. *)
Definition GetUsedMemory (w : World S) : Z := GetUsedMemory (proxy_base (self w)).
Definition GetStart (w : World S) : Z := GetStart (proxy_base (self w)).
Definition GetSize (w : World S) : Z := GetSize (proxy_base (self w)).

(** Calls through the proxy, whatever their arguments and results. *)
Inductive Call : Set :=
| CallAllocate (allocatedSize alignment : Z)
| CallDeallocate (p : Z).

Definition call (w : World S) (c : Call) : World S :=
  match c with
  | CallAllocate sz al => snd (Allocate w sz al)
  | CallDeallocate p => Deallocate w p
  end.

(** The same calls made on the wrapped allocator itself. *)
Definition direct (s : S) (c : Call) : S :=
  match c with
  | CallAllocate sz al => snd (impl_Allocate s sz al)
  | CallDeallocate p => impl_Deallocate s p
  end.

(** The header declares [ProxyAllocator::Allocate] and
    [ProxyAllocator::Deallocate] without bodies: any pair of functions of
    these types can stand for them. *)
Definition AllocateBody : Type := World S -> Z -> Z -> Result Z * World S.
Definition DeallocateBody : Type := World S -> Z -> World S.

(** Modelled from the spec: what section 4.6 asks of the two bodies, to
    "forward verbatim to the wrapped allocator": the result returned and the
    wrapped allocator afterwards are those of the wrapped allocator's own
    operation.  Nothing is asked of the proxy's counters. *)
Definition forwards (A : AllocateBody) (D : DeallocateBody) : Prop :=
  (forall w sz al,
     fst (A w sz al) = fst (impl_Allocate (referent w) sz al) /\
     referent (snd (A w sz al)) = snd (impl_Allocate (referent w) sz al)) /\
  (forall w p, referent (D w p) = impl_Deallocate (referent w) p).

(** Modelled from the spec: section 3 makes [start] and [size] immutable
    after construction, so the two bodies leave the proxy's own [start_] and
    [size_] as they are. *)
Definition keeps_own_arena (A : AllocateBody) (D : DeallocateBody) : Prop :=
  (forall w sz al,
     start_ (proxy_base (self (snd (A w sz al)))) = start_ (proxy_base (self w)) /\
     size_ (proxy_base (self (snd (A w sz al)))) = size_ (proxy_base (self w))) /\
  (forall w p,
     start_ (proxy_base (self (D w p))) = start_ (proxy_base (self w)) /\
     size_ (proxy_base (self (D w p))) = size_ (proxy_base (self w))).

(** A call through the proxy, with the bodies [A] and [D]. *)
Definition call_with (A : AllocateBody) (D : DeallocateBody)
    (w : World S) (c : Call) : World S :=
  match c with
  | CallAllocate sz al => snd (A w sz al)
  | CallDeallocate p => D w p
  end.

(** The wrapped strategy never moves or resizes its arena: [start_] and
    [size_] are written by the constructor only. *)
Definition keeps_arena : Prop :=
  forall (s : S) (c : Call),
    start_ (impl_base (direct s c)) = start_ (impl_base s) /\
    size_ (impl_base (direct s c)) = size_ (impl_base s).

End Wrapped.

Arguments AllocateBody S : clear implicits.
Arguments DeallocateBody S : clear implicits.

End Proxy.

(** The pool [s] over the slots [slots T b n] of the arena [(mem, size)]: its
    free list runs through the blocks [fl], in that order, and the client
    holds the blocks [live]. *)
Definition pool_repr (T : ElementShape) (mem size b : Z) (n : nat)
    (s : PoolAllocator.state) (fl live : list Z) : Prop :=
  lseg (snd s) (PoolAllocator.freeBlocks_ (fst s)) fl /\
  Permutation (fl ++ live) (slots T b n) /\
  usedMemory_ (PoolAllocator.base (fst s)) = Z.of_nat (length live) * sizeofT T /\
  numAllocations_ (PoolAllocator.base (fst s)) = Z.of_nat (length live) /\
  start_ (PoolAllocator.base (fst s)) = mem /\
  size_ (PoolAllocator.base (fst s)) = size.

(** The live pointers left once those of [ps] are given back. *)
Definition remove_all (ps live : list Z) : list Z :=
  fold_left (fun l p => remove Z.eq_dec p l) ps live.

(** ** [FreeListAllocator]: the constructor *)

(** [struct FreeBlock { size_t size; FreeBlock* next; }]: two 8-byte members,
    [size] first. *)
Definition sizeof_FreeBlock : Z := 16.
Definition FreeBlock_size (block : Z) : Z := block.
Definition FreeBlock_next (block : Z) : Z := block + 8.

(** A [size_t] is stored as a pointer is: 8 bytes, little endian. *)
Definition store_size_t (h : Heap) (a v : Z) : Heap := store_ptr h a v.
Definition load_size_t (h : Heap) (a : Z) : Z := load_ptr h a.

(** [FreeListAllocator(size_t size, void* start)].  [None]: the assertion
    "Free List Allocator cannot be empty" fails, before anything is written
    (the specification names no error kind for it). *)
Definition FreeListAllocator_ctor (size start : Z) (h : Heap)
  : option (FreeListAllocator * Heap) :=
  let a := {| freelist_base := Allocator_ctor size start;
              freelist_freeBlocks_ := start |} in
  if sizeof_FreeBlock <? size then
    let h1 := store_size_t h (FreeBlock_size (freelist_freeBlocks_ a)) size in
    let h2 := store_ptr h1 (FreeBlock_next (freelist_freeBlocks_ a)) nullptr in
    Some (a, h2)
  else None.

(** ** Concrete instances used in the examples *)

(** A 16-byte element aligned on 8 bytes. *)
Definition example_shape : ElementShape := {| sizeofT := 16; alignofT := 8 |}.

(** Memory before anything was stored. *)
Definition blank_heap : Heap := {| bytes := fun _ => 0; stores := [] |}.

(** ** Facts on 64-bit arithmetic *)

Lemma u64_modulus_eq : u64_modulus = 18446744073709551616.
Proof. reflexivity. Qed.

Lemma wrap64_small z : in_u64 z -> wrap64 z = z.
Proof. unfold in_u64, wrap64. intros H. apply Z.mod_small. exact H. Qed.

Lemma wrap64_range z : in_u64 (wrap64 z).
Proof.
  unfold in_u64, wrap64. apply Z.mod_pos_bound. rewrite u64_modulus_eq. lia.
Qed.

Lemma is_pow2_spec a :
  is_pow2 a = true <-> exists k, 0 <= k /\ a = 2 ^ k.
Proof.
  unfold is_pow2. rewrite andb_true_iff, Z.ltb_lt, Z.eqb_eq. split.
  - intros [Hpos Heq]. exists (Z.log2 a). split; [apply Z.log2_nonneg | exact Heq].
  - intros [k [Hk ->]]. split.
    + apply Z.pow_pos_nonneg; lia.
    + rewrite Z.log2_pow2 by exact Hk. reflexivity.
Qed.

Lemma pow2_u64_exponent k : 0 <= k -> in_u64 (2 ^ k) -> k < 64.
Proof.
  intros Hk [_ Hlt]. destruct (Z_lt_ge_dec k 64) as [H|H]; [exact H|].
  exfalso. unfold u64_modulus in Hlt.
  assert (2 ^ 64 <= 2 ^ k) by (apply Z.pow_le_mono_r; lia). lia.
Qed.

Lemma pow2_divides_modulus k : 0 <= k < 64 -> u64_modulus mod 2 ^ k = 0.
Proof.
  intros Hk. unfold u64_modulus.
  replace 64 with ((64 - k) + k) by lia.
  rewrite Z.pow_add_r by lia. apply Z.mod_mul.
  apply Z.pow_nonzero; lia.
Qed.

(** The mask [alignment - 1] selects the remainder modulo a power of two. *)
Lemma land_mask_pow2 x k :
  0 <= k < 64 -> Z.land x (wrap64 (2 ^ k - 1)) = x mod 2 ^ k.
Proof.
  intros Hk.
  assert (Hp : 0 < 2 ^ k) by (apply Z.pow_pos_nonneg; lia).
  assert (Hlt : 2 ^ k < u64_modulus).
  { unfold u64_modulus. apply Z.pow_lt_mono_r; lia. }
  rewrite wrap64_small by (unfold in_u64; lia).
  rewrite <- Z.land_ones by lia. rewrite Z.ones_equiv. reflexivity.
Qed.

Lemma pow2_test_passes k :
  0 <= k < 64 -> Z.land (2 ^ k) (wrap64 (2 ^ k - 1)) = 0.
Proof.
  intros Hk. rewrite land_mask_pow2 by exact Hk.
  apply Z.mod_same. apply Z.pow_nonzero; lia.
Qed.

(** What the masking test of the source accepts: zero and the powers of two. *)
Lemma pow2_test_rejects a :
  in_u64 a -> 0 < a -> is_pow2 a = false ->
  Z.land a (wrap64 (a - 1)) <> 0.
Proof.
  intros Ha Hpos Hnp Hland.
  rewrite wrap64_small in Hland by (unfold in_u64 in *; lia).
  pose proof (Z.log2_spec a Hpos) as [Hlo Hhi].
  assert (Hk : 0 <= Z.log2 a) by apply Z.log2_nonneg.
  assert (Hne : a <> 2 ^ Z.log2 a).
  { intros Heq. unfold is_pow2 in Hnp.
    apply andb_false_iff in Hnp. destruct Hnp as [H|H].
    - apply Z.ltb_ge in H. lia.
    - apply Z.eqb_neq in H. contradiction. }
  assert (Hbit1 : Z.testbit a (Z.log2 a) = true) by (apply Z.bit_log2; lia).
  assert (Hbit2 : Z.testbit (a - 1) (Z.log2 a) = true).
  { assert (Hl : Z.log2 (a - 1) = Z.log2 a).
    { apply Z.log2_unique; [exact Hk|]. rewrite Z.pow_succ_r in Hhi by exact Hk.
      rewrite Z.pow_succ_r by exact Hk. lia. }
    rewrite <- Hl. apply Z.bit_log2.
    assert (0 < 2 ^ Z.log2 a) by (apply Z.pow_pos_nonneg; lia). lia. }
  assert (Hbit : Z.testbit (Z.land a (a - 1)) (Z.log2 a) = true).
  { rewrite Z.land_spec, Hbit1, Hbit2. reflexivity. }
  rewrite Hland in Hbit. rewrite Z.bits_0 in Hbit. discriminate.
Qed.

Lemma wrap64_mod_pow2 x k : 0 <= k < 64 -> wrap64 x mod 2 ^ k = x mod 2 ^ k.
Proof.
  intros Hk. unfold wrap64.
  assert (Hp : 0 < 2 ^ k) by (apply Z.pow_pos_nonneg; lia).
  pose proof (pow2_divides_modulus k Hk) as Hd.
  apply Z.mod_divide in Hd; [|lia]. destruct Hd as [c Hc].
  rewrite Hc. rewrite Z.mul_comm.
  rewrite Z.rem_mul_r by (try lia; rewrite u64_modulus_eq in Hc; lia).
  rewrite Z.mul_comm, Z.mod_add by lia. apply Z.mod_mod. lia.
Qed.

(** ** The alignment primitives on a power of two *)

Section PowerOfTwo.

Variables address alignment : Z.
Hypothesis address_u64 : in_u64 address.
Hypothesis alignment_u64 : in_u64 alignment.
Hypothesis alignment_pow2 : is_pow2 alignment = true.

Lemma alignment_exponent : exists k, 0 <= k < 64 /\ alignment = 2 ^ k.
Proof.
  apply is_pow2_spec in alignment_pow2. destruct alignment_pow2 as [k [Hk Heq]].
  exists k. split; [|exact Heq]. split; [exact Hk|].
  apply pow2_u64_exponent; [exact Hk|]. rewrite <- Heq. exact alignment_u64.
Qed.

Lemma alignment_pos : 0 < alignment.
Proof.
  destruct alignment_exponent as [k [Hk ->]]. apply Z.pow_pos_nonneg; lia.
Qed.

(** The value the code computes, in closed form. *)
Lemma adjustment_closed_form :
  Allocator.CalculateAlignForwardAdjustment address alignment =
  Ok ((alignment - address mod alignment) mod alignment).
Proof.
  pose proof alignment_pos as Hpos.
  destruct alignment_exponent as [k [Hk Heq]].
  unfold Allocator.CalculateAlignForwardAdjustment.
  assert (Htest : Z.land alignment (wrap64 (alignment - 1)) = 0)
    by (rewrite Heq; apply pow2_test_passes; exact Hk).
  assert (Hmask : Z.land address (wrap64 (alignment - 1)) = address mod alignment)
    by (rewrite Heq; apply land_mask_pow2; exact Hk).
  rewrite Htest, Hmask. cbn [Z.eqb neko_assert bind].
  pose proof (Z.mod_pos_bound address alignment Hpos) as Hr.
  pose proof alignment_u64 as Hal. unfold in_u64 in Hal.
  rewrite wrap64_small by (unfold in_u64; lia).
  destruct (Z.eqb_spec (alignment - address mod alignment) alignment) as [E|E].
  - rewrite E. rewrite Z.mod_same by lia. reflexivity.
  - rewrite (Z.mod_small (alignment - address mod alignment)) by lia. reflexivity.
Qed.

Lemma adjustment_facts :
  let adj := (alignment - address mod alignment) mod alignment in
  0 <= adj < alignment /\
  (address + adj) mod alignment = 0 /\
  (forall o, 0 <= o -> (address + o) mod alignment = 0 -> adj <= o) /\
  (address mod alignment = 0 -> adj = 0).
Proof.
  pose proof alignment_pos as Hpos. intros adj.
  pose proof (Z.mod_pos_bound address alignment Hpos) as Hr.
  pose proof (Z.div_mod address alignment ltac:(lia)) as Hdm.
  assert (Hadj : 0 <= adj < alignment) by (apply Z.mod_pos_bound; exact Hpos).
  assert (Hcases : (address mod alignment = 0 /\ adj = 0) \/
                   (0 < address mod alignment /\ adj = alignment - address mod alignment)).
  { destruct (Z.eq_dec (address mod alignment) 0) as [E|E].
    - left. split; [exact E|]. unfold adj. rewrite E, Z.sub_0_r.
      apply Z.mod_same. lia.
    - right. split; [lia|]. unfold adj. apply Z.mod_small. lia. }
  split; [exact Hadj|]. split; [|split].
  - destruct Hcases as [[E Ea]|[E Ea]]; rewrite Ea.
    + rewrite Z.add_0_r. exact E.
    + replace (address + (alignment - address mod alignment))
        with (alignment * (address / alignment + 1)) by lia.
      rewrite Z.mul_comm. apply Z.mod_mul. lia.
  - intros o Ho Hm. destruct Hcases as [[E Ea]|[E Ea]]; [lia|].
    destruct (Z_lt_ge_dec o adj) as [Hlt|Hge]; [|lia]. exfalso.
    assert (Hmod : (address + o) mod alignment = address mod alignment + o).
    { symmetry. apply (Z.mod_unique _ _ (address / alignment)); lia. }
    lia.
  - intros E. destruct Hcases as [[_ Ea]|[E' _]]; lia.
Qed.

End PowerOfTwo.

(** C1 (as the code has it).  For every 64-bit address and every power-of-two
    alignment, [CalculateAlignForwardAdjustment] succeeds with the smallest
    non-negative offset [adj] such that [address + adj] is a multiple of the
    alignment, and with 0 when the address is aligned already.  Whenever
    [address + adj] is below [2^64], [AlignForward] returns [address + adj],
    the smallest multiple of the alignment that is at least [address]; when
    [address + adj] reaches [2^64] the sum wraps and [AlignForward] returns
    0. *)
Theorem AlignForward_smallest_multiple address alignment :
  in_u64 address -> in_u64 alignment -> is_pow2 alignment = true ->
  exists adj,
    Allocator.CalculateAlignForwardAdjustment address alignment = Ok adj /\
    0 <= adj < alignment /\
    (address + adj) mod alignment = 0 /\
    (forall o, 0 <= o -> (address + o) mod alignment = 0 -> adj <= o) /\
    (address mod alignment = 0 -> adj = 0) /\
    (address + adj < u64_modulus ->
       Allocator.AlignForward address alignment = Ok (address + adj) /\
       address <= address + adj /\
       forall m, address <= m -> m mod alignment = 0 -> address + adj <= m) /\
    (u64_modulus <= address + adj ->
       Allocator.AlignForward address alignment = Ok 0).
Proof.
  intros Ha Hal Hp.
  pose proof (adjustment_closed_form address alignment Hal Hp) as Hcf.
  pose proof (adjustment_facts address alignment Hal Hp) as Hf.
  cbv zeta in Hf. destruct Hf as [Hr [Hm [Hmin Hz]]].
  exists ((alignment - address mod alignment) mod alignment).
  set (adj := (alignment - address mod alignment) mod alignment) in *.
  repeat split; try assumption; try lia.
  - unfold Allocator.AlignForward. rewrite Hcf. cbn [bind].
    rewrite wrap64_small by (unfold in_u64 in *; lia). reflexivity.
  - intros m Hge Hmm. specialize (Hmin (m - address)).
    replace (address + (m - address)) with m in Hmin by lia. lia.
  - intros Hov. unfold Allocator.AlignForward. rewrite Hcf. cbn [bind].
    f_equal. unfold wrap64.
    assert (Hdiv : (address + adj) mod u64_modulus mod alignment = 0).
    { destruct (alignment_exponent alignment Hal Hp) as [k [Hk Heq]].
      rewrite Heq. fold (wrap64 (address + adj)).
      rewrite wrap64_mod_pow2 by exact Hk. rewrite <- Heq. exact Hm. }
    unfold in_u64 in *.
    assert (Hlt : address + adj - u64_modulus < alignment) by lia.
    assert (Hw : (address + adj) mod u64_modulus = address + adj - u64_modulus).
    { symmetry. apply (Z.mod_unique _ _ 1); lia. }
    rewrite Hw in *. rewrite Z.mod_small in Hdiv by lia. exact Hdiv.
Qed.

Lemma AlignForward_smallest_multiple_witness :
  exists adj,
    Allocator.CalculateAlignForwardAdjustment 4099 16 = Ok adj /\
    0 <= adj < 16 /\
    (4099 + adj) mod 16 = 0 /\
    (forall o, 0 <= o -> (4099 + o) mod 16 = 0 -> adj <= o) /\
    (4099 mod 16 = 0 -> adj = 0) /\
    (4099 + adj < u64_modulus ->
       Allocator.AlignForward 4099 16 = Ok (4099 + adj) /\
       4099 <= 4099 + adj /\
       forall m, 4099 <= m -> m mod 16 = 0 -> 4099 + adj <= m) /\
    (u64_modulus <= 4099 + adj -> Allocator.AlignForward 4099 16 = Ok 0).
Proof.
  apply (AlignForward_smallest_multiple 4099 16).
  - unfold in_u64. rewrite u64_modulus_eq. lia.
  - unfold in_u64. rewrite u64_modulus_eq. lia.
  - reflexivity.
Defined.

(** C1 as stated fails at the top of the address space: the address
    [2^64 - 1] with alignment 2 has adjustment 1, the sum wraps, and
    [AlignForward] returns 0, which is not at least the address. *)
Lemma AlignForward_wraps_at_top :
  in_u64 18446744073709551615 /\ in_u64 2 /\ is_pow2 2 = true /\
  Allocator.CalculateAlignForwardAdjustment 18446744073709551615 2 = Ok 1 /\
  Allocator.AlignForward 18446744073709551615 2 = Ok 0 /\
  ~ (exists r, Allocator.AlignForward 18446744073709551615 2 = Ok r /\
               18446744073709551615 <= r).
Proof.
  assert (E : Allocator.AlignForward 18446744073709551615 2 = Ok 0)
    by (vm_compute; reflexivity).
  repeat split; try (vm_compute; congruence).
  intros [r [Hr Hle]]. rewrite E in Hr. injection Hr as <-. lia.
Qed.

Lemma add_wrap64_mod_pow2 x y k :
  0 <= k < 64 -> wrap64 (x + wrap64 y) mod 2 ^ k = (x + y) mod 2 ^ k.
Proof.
  intros Hk. assert (Hp : 0 < 2 ^ k) by (apply Z.pow_pos_nonneg; lia).
  rewrite wrap64_mod_pow2 by exact Hk.
  rewrite Z.add_mod by lia. rewrite wrap64_mod_pow2 by exact Hk.
  rewrite <- Z.add_mod by lia. reflexivity.
Qed.

Lemma header_adjustment_exact_facts address alignment headerSize :
  in_u64 address -> in_u64 alignment -> in_u64 headerSize ->
  is_pow2 alignment = true ->
  let e := header_adjustment_exact address alignment headerSize in
  headerSize <= e /\ 0 <= e /\ e < headerSize + alignment /\
  (address + e) mod alignment = 0.
Proof.
  intros Ha Hal Hh Hp e.
  pose proof (alignment_pos alignment Hal Hp) as Hpos.
  pose proof (adjustment_facts address alignment Hal Hp) as Hf.
  cbv zeta in Hf. destruct Hf as [Hr [Hm _]].
  unfold e, header_adjustment_exact.
  set (a0 := (alignment - address mod alignment) mod alignment) in *.
  cbv zeta. unfold in_u64 in *.
  destruct (Z.ltb_spec a0 headerSize) as [Hlt|Hge]; [|repeat split; try lia; exact Hm].
  set (ns := headerSize - a0).
  pose proof (Z.div_mod ns alignment ltac:(lia)) as Hdm.
  pose proof (Z.mod_pos_bound ns alignment Hpos) as Hnb.
  assert (Hns : ns = headerSize - a0) by reflexivity.
  destruct (Z.ltb_spec 0 (ns mod alignment)) as [Hrem|Hrem].
  - repeat split; try lia.
    replace (address + (a0 + alignment * (ns / alignment) + alignment))
      with (address + a0 + (ns / alignment + 1) * alignment) by lia.
    rewrite Z.mod_add by lia. exact Hm.
  - repeat split; try lia.
    replace (address + (a0 + alignment * (ns / alignment)))
      with (address + a0 + (ns / alignment) * alignment) by lia.
    rewrite Z.mod_add by lia. exact Hm.
Qed.

Lemma header_adjustment_code address alignment headerSize :
  in_u64 address -> in_u64 alignment -> in_u64 headerSize ->
  is_pow2 alignment = true ->
  Allocator.CalculateAlignForwardAdjustmentWithHeader address alignment headerSize
  = Ok (wrap64 (header_adjustment_exact address alignment headerSize)).
Proof.
  intros Ha Hal Hh Hp.
  pose proof (alignment_pos alignment Hal Hp) as Hpos.
  pose proof (adjustment_facts address alignment Hal Hp) as Hf.
  cbv zeta in Hf. destruct Hf as [Hr _].
  unfold Allocator.CalculateAlignForwardAdjustmentWithHeader, header_adjustment_exact.
  rewrite (adjustment_closed_form address alignment Hal Hp). cbn [bind].
  set (a0 := (alignment - address mod alignment) mod alignment) in *.
  cbv zeta. unfold in_u64 in *.
  destruct (Z.ltb_spec a0 headerSize) as [Hlt|Hge].
  2:{ rewrite wrap64_small by (unfold in_u64; lia). reflexivity. }
  rewrite (wrap64_small (headerSize - a0)) by (unfold in_u64; lia).
  set (ns := headerSize - a0).
  assert (Hns : ns = headerSize - a0) by reflexivity.
  pose proof (Z.div_mod ns alignment ltac:(lia)) as Hdm.
  pose proof (Z.mod_pos_bound ns alignment Hpos) as Hnb.
  assert (Hq : 0 <= alignment * (ns / alignment)).
  { apply Z.mul_nonneg_nonneg; [lia|]. apply Z.div_pos; lia. }
  rewrite (wrap64_small (alignment * (ns / alignment))) by (unfold in_u64; lia).
  rewrite (wrap64_small (a0 + alignment * (ns / alignment)))
    by (unfold in_u64; lia).
  destruct (Z.ltb_spec 0 (ns mod alignment)) as [Hrem|Hrem]; [reflexivity|].
  rewrite wrap64_small by (unfold in_u64; lia). reflexivity.
Qed.

(** C2 (as the code has it).  For every 64-bit address, power-of-two
    alignment and header size, [CalculateAlignForwardAdjustmentWithHeader]
    and [AlignForwardWithHeader] succeed and the payload address is a multiple
    of the alignment.  The offset is at least [headerSize] whenever
    [headerSize + alignment <= 2^64], and the payload address lies at least
    [headerSize] bytes after [address] whenever
    [address + headerSize + alignment <= 2^64]; beyond these bounds the
    64-bit sums wrap. *)
Theorem AlignForwardWithHeader_reserves_header address alignment headerSize :
  in_u64 address -> in_u64 alignment -> in_u64 headerSize ->
  is_pow2 alignment = true ->
  exists adj payload,
    Allocator.CalculateAlignForwardAdjustmentWithHeader
      address alignment headerSize = Ok adj /\
    Allocator.AlignForwardWithHeader address alignment headerSize = Ok payload /\
    payload mod alignment = 0 /\
    (headerSize + alignment <= u64_modulus -> headerSize <= adj) /\
    (address + headerSize + alignment <= u64_modulus ->
       payload = address + adj /\ address + headerSize <= payload).
Proof.
  intros Ha Hal Hh Hp.
  pose proof (header_adjustment_code address alignment headerSize Ha Hal Hh Hp)
    as Hcode.
  pose proof (header_adjustment_exact_facts address alignment headerSize
                Ha Hal Hh Hp) as Hf.
  cbv zeta in Hf. destruct Hf as [Hge [Hnn [Hub Hm]]].
  set (e := header_adjustment_exact address alignment headerSize) in *.
  exists (wrap64 e), (wrap64 (address + wrap64 e)).
  split; [exact Hcode|]. split.
  { unfold Allocator.AlignForwardWithHeader. rewrite Hcode. reflexivity. }
  split.
  { destruct (alignment_exponent alignment Hal Hp) as [k [Hk Heq]].
    rewrite Heq. rewrite add_wrap64_mod_pow2 by exact Hk. rewrite <- Heq.
    exact Hm. }
  unfold in_u64 in *. split.
  - intros Hb. rewrite wrap64_small by (unfold in_u64; lia). exact Hge.
  - intros Hb. rewrite (wrap64_small e) by (unfold in_u64; lia).
    rewrite wrap64_small by (unfold in_u64; lia). lia.
Qed.

Lemma AlignForwardWithHeader_reserves_header_witness :
  exists adj payload,
    Allocator.CalculateAlignForwardAdjustmentWithHeader 4099 8 9 = Ok adj /\
    Allocator.AlignForwardWithHeader 4099 8 9 = Ok payload /\
    payload mod 8 = 0 /\
    (9 + 8 <= u64_modulus -> 9 <= adj) /\
    (4099 + 9 + 8 <= u64_modulus ->
       payload = 4099 + adj /\ 4099 + 9 <= payload).
Proof.
  apply (AlignForwardWithHeader_reserves_header 4099 8 9).
  - unfold in_u64. rewrite u64_modulus_eq. lia.
  - unfold in_u64. rewrite u64_modulus_eq. lia.
  - unfold in_u64. rewrite u64_modulus_eq. lia.
  - reflexivity.
Defined.

(** C2 as stated fails for a header size near [2^64]: at address 0 with
    alignment 2 and header size [2^64 - 1] the adjustment wraps to 0, which is
    less than the header size. *)
Lemma header_adjustment_wraps :
  in_u64 0 /\ in_u64 2 /\ in_u64 18446744073709551615 /\ is_pow2 2 = true /\
  Allocator.CalculateAlignForwardAdjustmentWithHeader 0 2 18446744073709551615
    = Ok 0 /\
  Allocator.AlignForwardWithHeader 0 2 18446744073709551615 = Ok 0 /\
  ~ (exists adj,
       Allocator.CalculateAlignForwardAdjustmentWithHeader
         0 2 18446744073709551615 = Ok adj /\
       18446744073709551615 <= adj).
Proof.
  assert (E : Allocator.CalculateAlignForwardAdjustmentWithHeader
                0 2 18446744073709551615 = Ok 0) by (vm_compute; reflexivity).
  repeat split; try (vm_compute; congruence).
  intros [adj [Hadj Hle]]. rewrite E in Hadj. injection Hadj as <-. lia.
Qed.

(** ** The power-of-two test *)

Lemma CalculateAlignForwardAdjustment_rejects address alignment :
  in_u64 alignment -> 0 < alignment -> is_pow2 alignment = false ->
  Allocator.CalculateAlignForwardAdjustment address alignment
  = Fail InvalidAlignment.
Proof.
  intros Hal Hpos Hnp. unfold Allocator.CalculateAlignForwardAdjustment.
  pose proof (pow2_test_rejects alignment Hal Hpos Hnp) as Hne.
  apply Z.eqb_neq in Hne. rewrite Hne. reflexivity.
Qed.

(** C3 at the failing input: 0 is not a power of two, yet the masking test
    [(alignment & (alignment - 1)) == 0] accepts it, and the function computes
    an adjustment instead of failing with [InvalidAlignment]. *)
Theorem CalculateAlignForwardAdjustment_accepts_zero :
  in_u64 0 /\ is_pow2 0 = false /\
  Allocator.CalculateAlignForwardAdjustment 5 0 = Ok 18446744073709551611 /\
  Allocator.CalculateAlignForwardAdjustment 5 0 <> Fail InvalidAlignment /\
  forall address, in_u64 address ->
    Allocator.CalculateAlignForwardAdjustment address 0
    = Ok (wrap64 (0 - address)).
Proof.
  split; [unfold in_u64; rewrite u64_modulus_eq; lia|].
  split; [reflexivity|].
  split; [vm_compute; reflexivity|].
  split; [vm_compute; discriminate|].
  intros address Ha. unfold Allocator.CalculateAlignForwardAdjustment.
  change (wrap64 (0 - 1)) with (Z.ones 64).
  cbn [Z.land Z.eqb neko_assert bind].
  rewrite Z.land_ones by lia. fold u64_modulus.
  unfold in_u64 in Ha. rewrite (Z.mod_small address) by lia.
  destruct (Z.eqb_spec (wrap64 (0 - address)) 0) as [E|E]; [rewrite E|]; reflexivity.
Qed.

(** ** Memory: a pointer written is the pointer read back *)

Lemma le_value_le_bytes n v :
  le_value (le_bytes n v) = v mod 256 ^ Z.of_nat n.
Proof.
  revert v. induction n as [|n IH]; intros v.
  - cbn. rewrite Z.mod_1_r. reflexivity.
  - cbn [le_bytes le_value]. rewrite IH.
    rewrite Nat2Z.inj_succ, Z.pow_succ_r by lia.
    rewrite Z.rem_mul_r; [reflexivity|lia|]. apply Z.pow_pos_nonneg; lia.
Qed.

Lemma length_le_bytes n v : length (le_bytes n v) = n.
Proof. revert v. induction n as [|n IH]; intros v; cbn; [|rewrite IH]; reflexivity. Qed.

Lemma write_bytes_outside l : forall m a x,
  x < a \/ a + Z.of_nat (length l) <= x -> write_bytes m a l x = m x.
Proof.
  induction l as [|b l IH]; intros m a x Hx; [reflexivity|].
  cbn [write_bytes]. cbn [length] in Hx. rewrite IH by lia.
  destruct (Z.eqb_spec x a); [lia|reflexivity].
Qed.

Lemma read_bytes_ext n : forall m1 m2 a,
  (forall x, a <= x < a + Z.of_nat n -> m1 x = m2 x) ->
  read_bytes m1 a n = read_bytes m2 a n.
Proof.
  induction n as [|n IH]; intros m1 m2 a H; [reflexivity|].
  cbn [read_bytes]. f_equal.
  - apply H. lia.
  - apply IH. intros x Hx. apply H. lia.
Qed.

Lemma read_write_bytes l : forall m a,
  read_bytes (write_bytes m a l) a (length l) = l.
Proof.
  induction l as [|b l IH]; intros m a; [reflexivity|].
  cbn [write_bytes length read_bytes]. f_equal.
  - rewrite write_bytes_outside by lia. rewrite Z.eqb_refl. reflexivity.
  - apply IH.
Qed.

Lemma bytes_store_ptr_outside h a v x :
  x < a \/ a + sizeof_ptr <= x -> bytes (store_ptr h a v) x = bytes h x.
Proof.
  intros Hx. unfold store_ptr. cbn [bytes].
  apply write_bytes_outside. rewrite length_le_bytes. unfold sizeof_ptr in Hx. lia.
Qed.

Lemma load_ptr_ext h1 h2 a :
  (forall x, a <= x < a + sizeof_ptr -> bytes h1 x = bytes h2 x) ->
  load_ptr h1 a = load_ptr h2 a.
Proof.
  intros H. unfold load_ptr. f_equal. apply read_bytes_ext.
  intros x Hx. apply H. unfold sizeof_ptr. lia.
Qed.

Lemma load_store_same h a v : in_u64 v -> load_ptr (store_ptr h a v) a = v.
Proof.
  intros Hv. unfold load_ptr, store_ptr. cbn [bytes].
  pose proof (read_write_bytes (le_bytes 8 v) (bytes h) a) as H.
  rewrite length_le_bytes in H. rewrite H. rewrite le_value_le_bytes.
  apply Z.mod_small. unfold in_u64 in Hv. rewrite u64_modulus_eq in Hv.
  change (256 ^ Z.of_nat 8) with 18446744073709551616. exact Hv.
Qed.

Lemma load_store_other h a v b :
  a + sizeof_ptr <= b \/ b + sizeof_ptr <= a ->
  load_ptr (store_ptr h a v) b = load_ptr h b.
Proof.
  intros Hd. apply load_ptr_ext. intros x Hx.
  apply bytes_store_ptr_outside. lia.
Qed.

(** ** Slots *)

Lemma slots_length T b n : length (slots T b n) = n.
Proof. unfold slots. rewrite length_map, length_seq. reflexivity. Qed.

Lemma slots_S T b n : slots T b (S n) = b :: slots T (b + sizeofT T) n.
Proof.
  unfold slots. cbn [seq map]. f_equal; [lia|].
  rewrite <- seq_shift, map_map. apply map_ext. intros i. lia.
Qed.

Lemma slots_snoc T b n :
  slots T b (S n) = slots T b n ++ [b + Z.of_nat n * sizeofT T].
Proof. unfold slots. rewrite seq_S, map_app. reflexivity. Qed.

Lemma in_slots T b n x :
  In x (slots T b n) <->
  exists i, (i < n)%nat /\ x = b + Z.of_nat i * sizeofT T.
Proof.
  unfold slots. rewrite in_map_iff. split.
  - intros [i [Hx Hi]]. apply in_seq in Hi. exists i. split; [lia|congruence].
  - intros [i [Hi Hx]]. exists i. split; [congruence|]. apply in_seq. lia.
Qed.

Lemma slots_nth T b n i :
  (i < n)%nat -> nth i (slots T b n) 0 = b + Z.of_nat i * sizeofT T.
Proof.
  revert b i. induction n as [|n IH]; intros b i Hi; [lia|].
  rewrite slots_S. destruct i as [|i]; cbn [nth]; [lia|].
  rewrite IH by lia. lia.
Qed.

Lemma slots_sorted T b n :
  0 < sizeofT T -> StronglySorted Z.lt (slots T b n).
Proof.
  intros Hs. revert b. induction n as [|n IH]; intros b.
  - constructor.
  - rewrite slots_S. constructor; [apply IH|].
    apply Forall_forall. intros x Hx. apply in_slots in Hx.
    destruct Hx as [i [_ ->]]. nia.
Qed.

Lemma slots_NoDup T b n : 0 < sizeofT T -> NoDup (slots T b n).
Proof.
  intros Hs. revert b. induction n as [|n IH]; intros b.
  - constructor.
  - rewrite slots_S. constructor; [|apply IH].
    intros Hx. apply in_slots in Hx. destruct Hx as [i [_ Hx]]. nia.
Qed.

(** Two slots are the same or at least one element apart. *)
Lemma slots_apart T b n x y :
  0 < sizeofT T -> In x (slots T b n) -> In y (slots T b n) ->
  x = y \/ x + sizeofT T <= y \/ y + sizeofT T <= x.
Proof.
  intros Hs Hx Hy. apply in_slots in Hx. apply in_slots in Hy.
  destruct Hx as [i [_ ->]]. destruct Hy as [j [_ ->]].
  destruct (Nat.lt_trichotomy i j) as [H|[H|H]].
  - right; left. nia.
  - left. subst. reflexivity.
  - right; right. nia.
Qed.

Lemma slots_bounds T b n x :
  0 < sizeofT T -> In x (slots T b n) ->
  b <= x /\ x + sizeofT T <= b + Z.of_nat n * sizeofT T.
Proof.
  intros Hs Hx. apply in_slots in Hx. destruct Hx as [i [Hi ->]]. nia.
Qed.

(** ** The threading loop of the constructor *)

Lemma thread_spec T n :
  sizeof_ptr <= sizeofT T ->
  forall h b,
    0 <= b -> b + Z.of_nat n * sizeofT T < u64_modulus ->
    let r := PoolAllocator.thread T n h b in
    snd r = b + Z.of_nat n * sizeofT T /\
    stores (fst r) = rev (slots T b n) ++ stores h /\
    (forall x, x < b \/ b + Z.of_nat n * sizeofT T <= x ->
               bytes (fst r) x = bytes h x) /\
    (forall i, (i < n)%nat ->
               load_ptr (fst r) (b + Z.of_nat i * sizeofT T)
               = b + Z.of_nat (S i) * sizeofT T).
Proof.
  intros Hsz. unfold sizeof_ptr in Hsz.
  induction n as [|n IH]; intros h b Hb Hub r.
  - subst r. cbn [PoolAllocator.thread fst snd slots seq map rev app].
    repeat split; lia.
  - subst r. cbn [PoolAllocator.thread].
    assert (Hw : wrap64 (b + sizeofT T) = b + sizeofT T).
    { apply wrap64_small. unfold in_u64. nia. }
    rewrite Hw.
    set (h' := store_ptr h b (b + sizeofT T)).
    assert (Hl : load_ptr h' b = b + sizeofT T).
    { apply load_store_same. unfold in_u64. nia. }
    rewrite Hl.
    specialize (IH h' (b + sizeofT T) ltac:(lia) ltac:(nia)).
    cbv zeta in IH. destruct IH as [Hsnd [Hst [Hfr Hld]]].
    split; [rewrite Hsnd; lia|]. split; [|split].
    + rewrite Hst, slots_S. cbn [rev]. rewrite <- app_assoc. reflexivity.
    + intros x Hx. rewrite Hfr by nia.
      apply bytes_store_ptr_outside. unfold sizeof_ptr. nia.
    + intros i Hi. destruct i as [|j].
      * replace (b + Z.of_nat 0 * sizeofT T) with b by lia.
        replace (b + Z.of_nat 1 * sizeofT T) with (b + sizeofT T) by lia.
        transitivity (load_ptr h' b); [|exact Hl].
        apply load_ptr_ext. intros x Hx.
        apply Hfr. unfold sizeof_ptr in Hx. lia.
      * replace (b + Z.of_nat (S j) * sizeofT T)
          with (b + sizeofT T + Z.of_nat j * sizeofT T) by lia.
        rewrite Hld by lia. lia.
Qed.

(** ** Chains in memory *)

Lemma lseg_ext h1 h2 l : forall head,
  (forall a, In a l -> load_ptr h1 a = load_ptr h2 a) ->
  lseg h1 head l -> lseg h2 head l.
Proof.
  induction l as [|a l IH]; intros head Hl Hs; [exact Hs|].
  cbn [lseg] in *. destruct Hs as [Hh [Hn Hs]].
  split; [exact Hh|]. split; [exact Hn|].
  rewrite <- (Hl a) by (left; reflexivity).
  apply IH; [|exact Hs]. intros x Hx. apply Hl. right. exact Hx.
Qed.

Lemma lseg_store h a v l head :
  (forall x, In x l -> a + sizeof_ptr <= x \/ x + sizeof_ptr <= a) ->
  lseg h head l -> lseg (store_ptr h a v) head l.
Proof.
  intros Hd. apply lseg_ext. intros x Hx. symmetry.
  apply load_store_other. apply Hd. exact Hx.
Qed.

Lemma lseg_chain T n : forall h b,
  0 < b -> 0 <= sizeofT T ->
  (forall i, (i < n)%nat ->
     load_ptr h (b + Z.of_nat i * sizeofT T) = b + Z.of_nat (S i) * sizeofT T) ->
  load_ptr h (b + Z.of_nat n * sizeofT T) = nullptr ->
  lseg h b (slots T b (S n)).
Proof.
  induction n as [|n IH]; intros h b Hb Hs Hld Hend.
  - rewrite slots_S. cbn [slots seq map lseg].
    split; [reflexivity|]. split; [unfold nullptr; lia|].
    replace (b + Z.of_nat 0 * sizeofT T) with b in Hend by lia. exact Hend.
  - rewrite slots_S. cbn [lseg].
    split; [reflexivity|]. split; [unfold nullptr; lia|].
    pose proof (Hld 0%nat ltac:(lia)) as H0.
    replace (b + Z.of_nat 0 * sizeofT T) with b in H0 by lia.
    replace (b + Z.of_nat 1 * sizeofT T) with (b + sizeofT T) in H0 by lia.
    rewrite H0. apply IH; [lia|exact Hs| |].
    + intros i Hi. specialize (Hld (S i) ltac:(lia)).
      replace (b + sizeofT T + Z.of_nat i * sizeofT T)
        with (b + Z.of_nat (S i) * sizeofT T) by lia.
      rewrite Hld. lia.
    + replace (b + sizeofT T + Z.of_nat n * sizeofT T)
        with (b + Z.of_nat (S n) * sizeofT T) by lia.
      exact Hend.
Qed.

Lemma lseg_free_list h l : forall head fuel,
  lseg h head l -> (length l < fuel)%nat ->
  PoolAllocator.free_list fuel h head = l.
Proof.
  induction l as [|a l IH]; intros head fuel Hs Hf.
  - cbn [lseg] in Hs. subst head. destruct fuel; [cbn in Hf; lia|].
    cbn [PoolAllocator.free_list]. rewrite Z.eqb_refl. reflexivity.
  - cbn [lseg] in Hs. destruct Hs as [-> [Hn Hs]].
    destruct fuel; [cbn in Hf; lia|]. cbn [PoolAllocator.free_list].
    apply Z.eqb_neq in Hn. rewrite Hn. f_equal.
    apply IH; [exact Hs|]. cbn [length] in Hf. lia.
Qed.

(** ** The constructor of the pool *)

Lemma adj_range T mem adj :
  wf_shape T ->
  Allocator.CalculateAlignForwardAdjustment mem (alignofT T) = Ok adj ->
  0 <= adj < alignofT T.
Proof.
  intros [_ [_ [Hal Hp]]] Hadj.
  rewrite (adjustment_closed_form mem (alignofT T) Hal Hp) in Hadj.
  injection Hadj as <-.
  apply Z.mod_pos_bound. apply alignment_pos; assumption.
Qed.

Section Construction.

Variables (T : ElementShape) (mem size adj : Z).
Hypothesis T_wf : wf_shape T.
Hypothesis arena : valid_arena mem size.
Hypothesis adj_code :
  Allocator.CalculateAlignForwardAdjustment mem (alignofT T) = Ok adj.
Hypothesis one_fits : 1 <= (size - adj) / sizeofT T.

Abbreviation b := (mem + adj).
Abbreviation n := (Z.to_nat ((size - adj) / sizeofT T)).

Lemma slots_fit :
  sizeofT T <= size - adj /\
  Z.of_nat n * sizeofT T <= size - adj /\
  (1 <= n)%nat /\ Z.of_nat n = (size - adj) / sizeofT T.
Proof using T_wf one_fits.
  pose proof T_wf as [Hs _]. unfold sizeof_ptr in Hs.
  assert (Hn : Z.of_nat n = (size - adj) / sizeofT T)
    by (rewrite Z2Nat.id; lia).
  pose proof (Z.mul_div_le (size - adj) (sizeofT T) ltac:(lia)) as Hm.
  pose proof one_fits as Hone.
  rewrite <- Hn in Hm. rewrite <- Hn in Hone.
  repeat split; nia.
Qed.

Lemma first_slot_range : 0 < b /\ b + Z.of_nat n * sizeofT T <= u64_modulus.
Proof using T_wf arena adj_code one_fits.
  pose proof arena as [H1 [H2 H3]].
  pose proof (adj_range T mem adj T_wf adj_code).
  destruct slots_fit as [_ [Hf _]]. lia.
Qed.

Lemma numObjects_exact :
  PoolAllocator.numObjects T size adj = (size - adj) / sizeofT T.
Proof using T_wf arena adj_code one_fits.
  unfold PoolAllocator.numObjects. rewrite wrap64_small; [reflexivity|].
  pose proof arena as [H1 [H2 H3]].
  pose proof (adj_range T mem adj T_wf adj_code).
  destruct slots_fit as [Hf _]. pose proof T_wf as [Hs _].
  unfold sizeof_ptr in Hs. unfold in_u64. lia.
Qed.

Lemma iterations_exact :
  PoolAllocator.iterations (PoolAllocator.numObjects T size adj) = pred n.
Proof using T_wf arena adj_code one_fits.
  rewrite numObjects_exact. unfold PoolAllocator.iterations.
  destruct slots_fit as [_ [Hf [Hn Hq]]]. rewrite <- Hq.
  destruct first_slot_range as [Hb Hub]. pose proof T_wf as [Hs _].
  unfold sizeof_ptr in Hs.
  rewrite wrap64_small by (unfold in_u64; nia). lia.
Qed.

Lemma ctor_spec h :
  exists s0,
    PoolAllocator.ctor T size mem h = Ok s0 /\
    fst s0 = {| PoolAllocator.base := Allocator_ctor size mem;
                PoolAllocator.freeBlocks_ := b |} /\
    pool_repr T mem size b n s0 (slots T b n) [] /\
    stores (snd s0) = rev (slots T b n) ++ stores h /\
    (forall x, x < b \/ b + Z.of_nat n * sizeofT T <= x ->
               bytes (snd s0) x = bytes h x) /\
    load_ptr (snd s0) (b + Z.of_nat (pred n) * sizeofT T) = nullptr.
Proof using T_wf arena adj_code one_fits.
  destruct slots_fit as [Hfit [Hf [Hn Hq]]].
  destruct first_slot_range as [Hb Hub].
  pose proof T_wf as [Hs _]. unfold sizeof_ptr in Hs.
  unfold PoolAllocator.ctor. rewrite adj_code. cbn [bind].
  rewrite iterations_exact.
  rewrite (wrap64_small (mem + adj)) by (unfold in_u64; nia).
  pose proof (thread_spec T (pred n) (proj1 T_wf) h b ltac:(lia) ltac:(nia))
    as Hth.
  cbv zeta in Hth.
  destruct (PoolAllocator.thread T (pred n) h b) as [h1 fb] eqn:Eth.
  cbn [fst snd] in Hth. destruct Hth as [Hfb [Hst [Hfr Hld]]].
  eexists. split; [reflexivity|]. cbn [fst snd].
  assert (HS : slots T b n = slots T b (S (pred n)))
    by (f_equal; lia).
  split; [reflexivity|]. split; [|split; [|split]].
  - unfold pool_repr. cbn [fst snd PoolAllocator.base PoolAllocator.freeBlocks_
                             Allocator_ctor usedMemory_ numAllocations_
                             start_ size_ length].
    rewrite app_nil_r. repeat split; try reflexivity.
    rewrite HS. apply lseg_chain; [lia|lia| |].
    + intros i Hi. rewrite load_store_other; [apply Hld; exact Hi|].
      unfold sizeof_ptr. subst fb. nia.
    + subst fb. apply load_store_same.
      unfold in_u64, nullptr. rewrite u64_modulus_eq. lia.
  - cbn [store_ptr stores]. rewrite Hst, Hfb, HS.
    rewrite slots_snoc, rev_app_distr. reflexivity.
  - intros x Hx. rewrite bytes_store_ptr_outside; [apply Hfr; nia|].
    unfold sizeof_ptr. subst fb. nia.
  - subst fb. apply load_store_same.
    unfold in_u64, nullptr. rewrite u64_modulus_eq. lia.
Qed.

End Construction.

(** ** Allocation and release on a represented pool *)

Lemma remove_present l : forall p,
  NoDup l -> In p l -> Permutation l (p :: remove Z.eq_dec p l).
Proof.
  induction l as [|x l IH]; intros p Hnd Hin; [destruct Hin|].
  inversion Hnd as [|? ? Hx Hnd']; subst.
  cbn [remove]. destruct (Z.eq_dec p x) as [E|E].
  - subst x. rewrite notin_remove by exact Hx. reflexivity.
  - destruct Hin as [Hin|Hin]; [congruence|].
    rewrite perm_swap. constructor. apply IH; assumption.
Qed.

Lemma NoDup_app_disjoint (l1 l2 : list Z) x :
  NoDup (l1 ++ l2) -> In x l1 -> In x l2 -> False.
Proof.
  induction l1 as [|a l1 IH]; intros Hnd H1 H2; [destruct H1|].
  cbn [app] in Hnd. inversion Hnd as [|? ? Ha Hnd']; subst.
  destruct H1 as [->|H1].
  - apply Ha. apply in_or_app. right. exact H2.
  - apply IH; assumption.
Qed.

Lemma lseg_head_range h l : forall head,
  lseg h head l -> (forall x, In x l -> in_u64 x) -> in_u64 head.
Proof.
  destruct l as [|a l]; intros head Hs Hr; cbn [lseg] in Hs.
  - subst head. unfold in_u64, nullptr. rewrite u64_modulus_eq. lia.
  - destruct Hs as [-> _]. apply Hr. left. reflexivity.
Qed.

Section Represented.

Variables (T : ElementShape) (mem size b : Z) (n : nat).
Hypothesis ptr_fits : sizeof_ptr <= sizeofT T.
Hypothesis b_pos : 0 < b.
Hypothesis b_end : b + Z.of_nat n * sizeofT T <= u64_modulus.

Abbreviation repr := (pool_repr T mem size b n).
Abbreviation sz := (sizeofT T).

Lemma sz_pos : 0 < sz.
Proof. unfold sizeof_ptr in ptr_fits. lia. Qed.

Lemma repr_lengths s fl live :
  repr s fl live -> (length fl + length live = n)%nat.
Proof.
  intros [_ [Hp _]]. apply Permutation_length in Hp.
  rewrite length_app, slots_length in Hp. exact Hp.
Qed.

Lemma repr_NoDup s fl live : repr s fl live -> NoDup (fl ++ live).
Proof.
  intros [_ [Hp _]]. apply (Permutation_NoDup (Permutation_sym Hp)).
  apply slots_NoDup. exact sz_pos.
Qed.

Lemma repr_in_slots s fl live x :
  repr s fl live -> In x (fl ++ live) -> In x (slots T b n).
Proof. intros [_ [Hp _]] Hx. apply (Permutation_in _ Hp Hx). Qed.

Lemma slot_u64 x : In x (slots T b n) -> 0 < x /\ in_u64 x.
Proof.
  intros Hx. pose proof (slots_bounds T b n x sz_pos Hx) as [H1 H2].
  pose proof sz_pos. unfold in_u64. lia.
Qed.

Lemma Allocate_empty s live :
  repr s [] live ->
  PoolAllocator.Allocate T s sz (alignofT T) = (Fail OutOfMemory, s).
Proof.
  destruct s as [a hp]. intros [Hs _]. cbn [lseg fst snd] in Hs.
  unfold PoolAllocator.Allocate. rewrite !Z.eqb_refl. cbn [andb neko_assert].
  rewrite Hs, Z.eqb_refl. reflexivity.
Qed.

Lemma Allocate_head s p fl live :
  repr s (p :: fl) live ->
  exists s',
    PoolAllocator.Allocate T s sz (alignofT T) = (Ok p, s') /\
    repr s' fl (p :: live) /\
    usedMemory_ (PoolAllocator.base (fst s'))
      = usedMemory_ (PoolAllocator.base (fst s)) + sz /\
    numAllocations_ (PoolAllocator.base (fst s'))
      = numAllocations_ (PoolAllocator.base (fst s)) + 1.
Proof.
  intros Hr. pose proof (repr_lengths _ _ _ Hr) as Hlen. cbn [length] in Hlen.
  pose proof sz_pos as Hsz.
  destruct s as [a hp]. destruct Hr as [Hs [Hp [Hu [Hn [Hst Hsi]]]]].
  cbn [lseg fst snd] in *. destruct Hs as [Hhd [Hnz Hs]].
  unfold PoolAllocator.Allocate. rewrite !Z.eqb_refl. cbn [andb neko_assert].
  apply Z.eqb_neq in Hnz. rewrite Hhd, Hnz.
  eexists. split; [reflexivity|].
  cbn [fst snd PoolAllocator.base PoolAllocator.freeBlocks_
       usedMemory_ numAllocations_ start_ size_].
  assert (Hw1 : wrap64 (usedMemory_ (PoolAllocator.base a) + sz)
                = usedMemory_ (PoolAllocator.base a) + sz).
  { apply wrap64_small. rewrite Hu. unfold in_u64. nia. }
  assert (Hw2 : wrap64 (numAllocations_ (PoolAllocator.base a) + 1)
                = numAllocations_ (PoolAllocator.base a) + 1).
  { apply wrap64_small. rewrite Hn. unfold in_u64.
    unfold sizeof_ptr in ptr_fits. nia. }
  rewrite Hw1, Hw2. split; [|split; reflexivity].
  unfold pool_repr.
  cbn [fst snd PoolAllocator.base PoolAllocator.freeBlocks_
       usedMemory_ numAllocations_ start_ size_ length].
  repeat split; try assumption; try lia.
  - rewrite <- Hp. symmetry. apply (Permutation_middle fl live p).
Qed.

Lemma Deallocate_live s p fl live :
  repr s fl live -> In p live ->
  repr (PoolAllocator.Deallocate T s p) (p :: fl) (remove Z.eq_dec p live) /\
  usedMemory_ (PoolAllocator.base (fst (PoolAllocator.Deallocate T s p)))
    = usedMemory_ (PoolAllocator.base (fst s)) - sz /\
  numAllocations_ (PoolAllocator.base (fst (PoolAllocator.Deallocate T s p)))
    = numAllocations_ (PoolAllocator.base (fst s)) - 1 /\
  S (length (remove Z.eq_dec p live)) = length live.
Proof.
  intros Hr Hin. pose proof (repr_lengths _ _ _ Hr) as Hlen.
  pose proof (repr_NoDup _ _ _ Hr) as Hnd.
  pose proof sz_pos as Hsz.
  assert (Hslot : forall x, In x (fl ++ live) -> In x (slots T b n))
    by (intros x; apply (repr_in_slots _ _ _ _ Hr)).
  assert (Hndl : NoDup live) by (apply NoDup_app_remove_l in Hnd; exact Hnd).
  pose proof (remove_present live p Hndl Hin) as Hperm.
  assert (Hl : S (length (remove Z.eq_dec p live)) = length live).
  { apply Permutation_length in Hperm. cbn [length] in Hperm. lia. }
  assert (Hlive1 : (1 <= length live)%nat) by lia.
  destruct s as [a hp]. destruct Hr as [Hs [Hp [Hu [Hn [Hst Hsi]]]]].
  cbn [fst snd] in *.
  unfold PoolAllocator.Deallocate.
  cbn [fst snd PoolAllocator.base PoolAllocator.freeBlocks_
       usedMemory_ numAllocations_ start_ size_].
  assert (Hw1 : wrap64 (usedMemory_ (PoolAllocator.base a) - sz)
                = usedMemory_ (PoolAllocator.base a) - sz).
  { apply wrap64_small. rewrite Hu. unfold in_u64. nia. }
  assert (Hw2 : wrap64 (numAllocations_ (PoolAllocator.base a) - 1)
                = numAllocations_ (PoolAllocator.base a) - 1).
  { apply wrap64_small. rewrite Hn. unfold in_u64.
    unfold sizeof_ptr in ptr_fits. nia. }
  rewrite Hw1, Hw2. split; [|repeat split; try reflexivity; exact Hl].
  assert (Hpslot : In p (slots T b n)).
  { apply Hslot. apply in_or_app. right. exact Hin. }
  unfold pool_repr.
  cbn [fst snd PoolAllocator.base PoolAllocator.freeBlocks_
       usedMemory_ numAllocations_ start_ size_ lseg].
  repeat split; try assumption; try lia.
  - pose proof (slot_u64 p Hpslot) as [H0 _]. unfold nullptr. lia.
  - rewrite load_store_same.
    + apply lseg_store; [|exact Hs]. intros x Hx.
      assert (Hxs : In x (slots T b n)).
      { apply Hslot. apply in_or_app. left. exact Hx. }
      destruct (slots_apart T b n p x Hsz Hpslot Hxs) as [E|E].
      * subst x. exfalso.
        exact (NoDup_app_disjoint _ _ _ Hnd Hx Hin).
      * unfold sizeof_ptr in *. lia.
    + apply (lseg_head_range hp fl); [exact Hs|].
      intros x Hx. apply slot_u64. apply Hslot. apply in_or_app. left. exact Hx.
  - rewrite <- Hp. cbn [app].
    transitivity (fl ++ p :: remove Z.eq_dec p live).
    + apply Permutation_middle.
    + apply Permutation_app_head. symmetry. exact Hperm.
Qed.

Lemma Deallocate_all_live ps : forall s fl live,
  repr s fl live -> NoDup ps -> incl ps live ->
  repr (PoolAllocator.Deallocate_all T ps s) (rev ps ++ fl) (remove_all ps live).
Proof.
  induction ps as [|p ps IH]; intros s fl live Hr Hnd Hin; [exact Hr|].
  inversion Hnd as [|? ? Hp Hnd']; subst.
  assert (Hpl : In p live) by (apply Hin; left; reflexivity).
  destruct (Deallocate_live s p fl live Hr Hpl) as [Hr' _].
  unfold PoolAllocator.Deallocate_all, remove_all. cbn [fold_left rev].
  rewrite <- app_assoc. cbn [app]. apply IH; [exact Hr'|exact Hnd'|].
  intros x Hx. apply in_in_remove.
  - intros ->. contradiction.
  - apply Hin. right. exact Hx.
Qed.

Lemma Allocate_n_free l1 : forall s fl live,
  repr s (l1 ++ fl) live ->
  exists s',
    PoolAllocator.Allocate_n T (length l1) s = (Ok l1, s') /\
    repr s' fl (rev l1 ++ live).
Proof.
  induction l1 as [|p l1 IH]; intros s fl live Hr.
  - exists s. split; [reflexivity|exact Hr].
  - cbn [app] in Hr.
    destruct (Allocate_head s p (l1 ++ fl) live Hr) as [s1 [Ha [Hr1 _]]].
    destruct (IH s1 fl (p :: live) Hr1) as [s2 [Hn Hr2]].
    exists s2. cbn [length PoolAllocator.Allocate_n]. rewrite Ha, Hn.
    split; [reflexivity|]. cbn [rev]. rewrite <- app_assoc. exact Hr2.
Qed.

(** Every trace of [run] keeps the pool represented, and the counters follow
    the number of live pointers. *)
Lemma run_repr ops : forall s live fl s' live',
  repr s fl live ->
  PoolAllocator.run T ops s live = Some (s', live') ->
  (exists fl', repr s' fl' live') /\
  Z.of_nat (length live')
  = Z.of_nat (length live)
    + PoolAllocator.count_allocs ops - PoolAllocator.count_deallocs ops.
Proof.
  unfold PoolAllocator.count_allocs, PoolAllocator.count_deallocs.
  induction ops as [|o ops IH]; intros s live fl s' live' Hr Hrun.
  - cbn [PoolAllocator.run] in Hrun. injection Hrun as <- <-.
    split; [exists fl; exact Hr|]. cbn [filter length]. lia.
  - destruct o as [|p]; cbn [PoolAllocator.run] in Hrun.
    + destruct fl as [|q fl].
      * rewrite (Allocate_empty s live Hr) in Hrun. discriminate.
      * destruct (Allocate_head s q fl live Hr) as [s1 [Ha [Hr1 _]]].
        rewrite Ha in Hrun.
        destruct (IH s1 (q :: live) fl s' live' Hr1 Hrun) as [He Hl].
        split; [exact He|]. cbn [filter length] in *. lia.
    + destruct (existsb (Z.eqb p) live) eqn:Ex; [|discriminate].
      apply existsb_exists in Ex. destruct Ex as [x [Hx Hpx]].
      apply Z.eqb_eq in Hpx. subst x.
      destruct (Deallocate_live s p fl live Hr Hx) as [Hr1 [_ [_ Hlen]]].
      destruct (IH _ _ _ s' live' Hr1 Hrun) as [He Hl].
      split; [exact He|]. cbn [filter length] in *. lia.
Qed.

End Represented.

(** ** The pool after construction *)

Lemma construct_refused_iff T size mem h :
  sizeofT T < sizeof_ptr <-> PoolAllocator.construct T size mem h = None.
Proof.
  unfold PoolAllocator.construct, PoolAllocator.instantiate,
    PoolAllocator.static_assert_ok.
  destruct (Z.leb_spec sizeof_ptr (sizeofT T)) as [H|H].
  - split; [lia|intros E; discriminate E].
  - split; [reflexivity|intros _; exact H].
Qed.

Lemma construct_accepted T size mem h r :
  PoolAllocator.construct T size mem h = Some r ->
  sizeof_ptr <= sizeofT T /\ r = PoolAllocator.ctor T size mem h.
Proof.
  unfold PoolAllocator.construct, PoolAllocator.instantiate,
    PoolAllocator.static_assert_ok.
  destruct (Z.leb_spec sizeof_ptr (sizeofT T)) as [H|H]; intros E.
  - injection E as <-. split; [exact H|reflexivity].
  - discriminate E.
Qed.

(** C5.  A [PoolAllocator<T>] for an element type smaller than a pointer is
    refused at compile time, whatever the arena, and only such a type is
    refused.  When the declaration is accepted, over a valid arena in which
    at least one element fits, the constructor succeeds; the number of slots
    is [floor((size - adjustment) / sizeof(T))], [adjustment] being the
    alignment adjustment of the arena start; the free list in memory runs
    through exactly these slots, each [sizeof(T)] bytes after the previous
    one, in ascending address order, all of them inside the arena, and ends
    with a null pointer.  A 1024-byte arena of 16-byte elements with
    adjustment 0 has 64 slots. *)
Theorem PoolAllocator_ctor_partitions T mem size adj h :
  (sizeofT T < sizeof_ptr <-> PoolAllocator.construct T size mem h = None) /\
  (PoolAllocator.instantiate T <> None <-> sizeof_ptr <= sizeofT T) /\
  (forall r,
     PoolAllocator.construct T size mem h = Some r ->
     in_u64 (sizeofT T) -> in_u64 (alignofT T) ->
     is_pow2 (alignofT T) = true ->
     valid_arena mem size ->
     Allocator.CalculateAlignForwardAdjustment mem (alignofT T) = Ok adj ->
     1 <= (size - adj) / sizeofT T ->
     let b := mem + adj in
     let n := Z.to_nat ((size - adj) / sizeofT T) in
     sizeof_ptr <= sizeofT T /\
     exists s0,
       r = Ok s0 /\
       PoolAllocator.ctor T size mem h = Ok s0 /\
       PoolAllocator.numObjects T size adj = (size - adj) / sizeofT T /\
       PoolAllocator.freeBlocks_ (fst s0) = b /\
       lseg (snd s0) (PoolAllocator.freeBlocks_ (fst s0)) (slots T b n) /\
       PoolAllocator.free_list (S n) (snd s0) (PoolAllocator.freeBlocks_ (fst s0))
       = slots T b n /\
       length (slots T b n) = n /\
       (forall i, (i < n)%nat ->
          nth i (slots T b n) 0 = b + Z.of_nat i * sizeofT T) /\
       StronglySorted Z.lt (slots T b n) /\
       (forall x, In x (slots T b n) ->
          mem <= x /\ x + sizeofT T <= mem + size) /\
       (size = 1024 -> sizeofT T = 16 -> adj = 0 -> n = 64%nat)).
Proof.
  split; [apply construct_refused_iff|]. split.
  { unfold PoolAllocator.instantiate, PoolAllocator.static_assert_ok.
    destruct (Z.leb_spec sizeof_ptr (sizeofT T)) as [H|H].
    - split; [intros _; exact H|intros _; discriminate].
    - split; [intros Hn; exfalso; apply Hn; reflexivity|lia]. }
  intros r Hcons Hsu Halu Hp Har Hadj Hfit b n.
  destruct (construct_accepted T size mem h r Hcons) as [Hs ->].
  assert (Hwf : wf_shape T) by exact (conj Hs (conj Hsu (conj Halu Hp))).
  destruct (ctor_spec T mem size adj Hwf Har Hadj Hfit h)
    as [s0 [Hc [Hfst [Hrepr _]]]].
  pose proof (slots_fit T size adj Hwf Hfit) as [_ [Hf _]].
  pose proof (adj_range T mem adj Hwf Hadj) as Hadjr.
  assert (Hsz : 0 < sizeofT T) by (unfold sizeof_ptr in Hs; lia).
  fold b n in Hrepr, Hf, Hfst. destruct Hrepr as [Hseg _].
  split; [exact Hs|].
  exists s0. split; [exact Hc|]. split; [exact Hc|].
  split; [apply (numObjects_exact T mem size adj Hwf Har Hadj Hfit)|].
  split; [rewrite Hfst; reflexivity|].
  split; [exact Hseg|].
  split; [apply lseg_free_list; [exact Hseg|rewrite slots_length; lia]|].
  split; [apply slots_length|].
  split; [intros i Hi; apply slots_nth; exact Hi|].
  split; [apply slots_sorted; exact Hsz|].
  split.
  { intros x Hx. pose proof (slots_bounds T b n x Hsz Hx) as [H1 H2].
    subst b. lia. }
  intros -> Hs16 ->. subst n. rewrite Hs16. reflexivity.
Qed.

Lemma PoolAllocator_ctor_partitions_witness :
  PoolAllocator.construct {| sizeofT := 4; alignofT := 4 |} 1024 4096 blank_heap
  = None /\
  exists s0,
    PoolAllocator.construct example_shape 1024 4096 blank_heap = Some (Ok s0) /\
    PoolAllocator.ctor example_shape 1024 4096 blank_heap = Ok s0 /\
    PoolAllocator.freeBlocks_ (fst s0) = 4096 /\
    PoolAllocator.free_list 65 (snd s0) (PoolAllocator.freeBlocks_ (fst s0))
    = slots example_shape 4096 64 /\
    length (slots example_shape 4096 64) = 64%nat.
Proof.
  split.
  - destruct (PoolAllocator_ctor_partitions {| sizeofT := 4; alignofT := 4 |}
                4096 1024 0 blank_heap) as [[Hrefused _] _].
    apply Hrefused. unfold sizeof_ptr. cbn. lia.
  - destruct (PoolAllocator_ctor_partitions example_shape 4096 1024 0 blank_heap)
      as [_ [_ Hacc]].
    assert (Hcons : PoolAllocator.construct example_shape 1024 4096 blank_heap
                    = Some (PoolAllocator.ctor example_shape 1024 4096 blank_heap))
      by reflexivity.
    assert (Hsu : in_u64 (sizeofT example_shape))
      by (unfold in_u64; rewrite u64_modulus_eq; cbn; lia).
    assert (Halu : in_u64 (alignofT example_shape))
      by (unfold in_u64; rewrite u64_modulus_eq; cbn; lia).
    assert (Hp : is_pow2 (alignofT example_shape) = true) by reflexivity.
    assert (Har : valid_arena 4096 1024)
      by (unfold valid_arena; rewrite u64_modulus_eq; lia).
    assert (Hadj : Allocator.CalculateAlignForwardAdjustment 4096
                     (alignofT example_shape) = Ok 0) by reflexivity.
    assert (Hfit : 1 <= (1024 - 0) / sizeofT example_shape) by (cbn; lia).
    destruct (Hacc _ Hcons Hsu Halu Hp Har Hadj Hfit)
      as [_ [s0 [Hr [Hc [_ [Hfb [_ [Hfl [Hlen _]]]]]]]]].
    exists s0. split; [rewrite Hcons, Hr; reflexivity|].
    exact (conj Hc (conj Hfb (conj Hfl Hlen))).
Defined.

(** ** Exhaustion and recovery *)

(** C4.  A pool built over a valid arena that holds [N >= 1] slots serves [N]
    consecutive [Allocate(sizeof(T), alignof(T))] calls, which return the [N]
    slot addresses, all distinct; the next call fails with [OutOfMemory].
    From any state reached by successful allocations and releases of live
    pointers, releasing any duplicate-free selection [ps] of the live
    pointers, in any order, makes the next [length ps] allocations succeed
    (they return the released blocks, last released first). *)
Theorem PoolAllocator_exhaustion_recovery T mem size adj h :
  wf_shape T -> valid_arena mem size ->
  Allocator.CalculateAlignForwardAdjustment mem (alignofT T) = Ok adj ->
  1 <= (size - adj) / sizeofT T ->
  let N := Z.to_nat ((size - adj) / sizeofT T) in
  exists s0 sN,
    PoolAllocator.ctor T size mem h = Ok s0 /\
    PoolAllocator.Allocate_n T N s0 = (Ok (slots T (mem + adj) N), sN) /\
    NoDup (slots T (mem + adj) N) /\
    length (slots T (mem + adj) N) = N /\
    PoolAllocator.Allocate T sN (sizeofT T) (alignofT T)
      = (Fail OutOfMemory, sN) /\
    forall ops s live,
      PoolAllocator.run T ops s0 [] = Some (s, live) ->
      forall ps, NoDup ps -> incl ps live ->
        exists s',
          PoolAllocator.Allocate_n T (length ps)
            (PoolAllocator.Deallocate_all T ps s) = (Ok (rev ps), s').
Proof.
  intros Hwf Har Hadj Hfit N.
  destruct (ctor_spec T mem size adj Hwf Har Hadj Hfit h)
    as [s0 [Hc [_ [Hrepr _]]]].
  destruct (first_slot_range T mem size adj Hwf Har Hadj Hfit) as [Hb Hub].
  pose proof Hwf as [Hs _].
  assert (Hsz : 0 < sizeofT T) by (unfold sizeof_ptr in Hs; lia).
  fold N in Hrepr, Hub.
  assert (Hrepr' : pool_repr T mem size (mem + adj) N s0
                     (slots T (mem + adj) N ++ []) [])
    by (rewrite app_nil_r; exact Hrepr).
  destruct (Allocate_n_free T mem size (mem + adj) N Hs Hb Hub _ _ _ _ Hrepr')
    as [sN [HN HreprN]].
  rewrite slots_length in HN.
  exists s0, sN. split; [exact Hc|]. split; [exact HN|].
  split; [apply slots_NoDup; exact Hsz|]. split; [apply slots_length|].
  split; [apply (Allocate_empty T mem size (mem + adj) N sN _ HreprN)|].
  intros ops s live Hrun ps Hnd Hincl.
  destruct (run_repr T mem size (mem + adj) N Hs Hb Hub ops s0 [] _ s live
              Hrepr Hrun) as [[fl Hr] _].
  pose proof (Deallocate_all_live T mem size (mem + adj) N Hs Hb Hub
                ps s fl live Hr Hnd Hincl) as Hd.
  destruct (Allocate_n_free T mem size (mem + adj) N Hs Hb Hub _ _ _ _ Hd)
    as [s' [Ha _]].
  rewrite length_rev in Ha. exists s'. exact Ha.
Qed.

Lemma PoolAllocator_exhaustion_recovery_witness :
  let T := example_shape in
  exists s0 sN,
    PoolAllocator.ctor T 64 4096 blank_heap = Ok s0 /\
    PoolAllocator.Allocate_n T 4 s0 = (Ok [4096; 4112; 4128; 4144], sN) /\
    PoolAllocator.Allocate T sN 16 8 = (Fail OutOfMemory, sN) /\
    exists s s',
      PoolAllocator.run T
        [PoolAllocator.OpAllocate; PoolAllocator.OpAllocate;
         PoolAllocator.OpAllocate] s0 []
      = Some (s, [4128; 4112; 4096]) /\
      PoolAllocator.Allocate_n T 2
        (PoolAllocator.Deallocate_all T [4112; 4096] s)
      = (Ok [4096; 4112], s').
Proof.
  intros T.
  assert (Hwf : wf_shape T).
  { unfold wf_shape, in_u64, sizeof_ptr. rewrite u64_modulus_eq.
    subst T. cbn [sizeofT alignofT example_shape].
    repeat split; try lia; reflexivity. }
  assert (Har : valid_arena 4096 64).
  { unfold valid_arena. rewrite u64_modulus_eq. lia. }
  assert (Hadj : Allocator.CalculateAlignForwardAdjustment 4096 (alignofT T) = Ok 0)
    by reflexivity.
  assert (Hfit : 1 <= (64 - 0) / sizeofT T) by (cbn; lia).
  destruct (PoolAllocator_exhaustion_recovery T 4096 64 0 blank_heap
              Hwf Har Hadj Hfit)
    as [s0 [sN [Hc [Hn [_ [_ [Hf Hrec]]]]]]].
  exists s0, sN. split; [exact Hc|]. split; [exact Hn|]. split; [exact Hf|].
  destruct (PoolAllocator.run T
              [PoolAllocator.OpAllocate; PoolAllocator.OpAllocate;
               PoolAllocator.OpAllocate] s0 []) as [[s live]|] eqn:Er.
  - assert (Hlive : live = [4128; 4112; 4096]).
    { pose proof Hc as Hc'. vm_compute in Hc'. injection Hc' as Hs0.
      rewrite <- Hs0 in Er. vm_compute in Er. injection Er as _ Hl.
      symmetry. exact Hl. }
    subst live.
    assert (Hnd : NoDup [4112; 4096]).
    { constructor; [intros [H|[]]; discriminate H|].
      constructor; [intros []|constructor]. }
    assert (Hincl : incl [4112; 4096] [4128; 4112; 4096]).
    { intros x [<-|[<-|[]]]; cbn; tauto. }
    destruct (Hrec _ s _ Er [4112; 4096] Hnd Hincl) as [s' Hs'].
    exists s, s'. split; [reflexivity|exact Hs'].
  - exfalso. pose proof Hc as Hc'. vm_compute in Hc'. injection Hc' as Hs0.
    rewrite <- Hs0 in Er. vm_compute in Er. discriminate Er.
Defined.

(** ** The counters of the pool *)

(** C9.  A pool built over a valid arena that holds at least one slot starts
    with [usedMemory = 0] and [numAllocations = 0].  After any trace of
    successful [Allocate] calls and of [Deallocate] calls on live pointers,
    [usedMemory = numAllocations * sizeof(T)], and [numAllocations] is the
    number of allocations minus the number of releases, so that a balanced
    trace leaves both counters at 0.  From such a state a successful
    [Allocate] adds [sizeof(T)] to [usedMemory] and 1 to [numAllocations],
    and [Deallocate] of a live pointer subtracts the same amounts. *)
Theorem PoolAllocator_counters T mem size adj h :
  wf_shape T -> valid_arena mem size ->
  Allocator.CalculateAlignForwardAdjustment mem (alignofT T) = Ok adj ->
  1 <= (size - adj) / sizeofT T ->
  let used := fun s : PoolAllocator.state =>
                GetUsedMemory (PoolAllocator.base (fst s)) in
  let num := fun s : PoolAllocator.state =>
               numAllocations_ (PoolAllocator.base (fst s)) in
  exists s0,
    PoolAllocator.ctor T size mem h = Ok s0 /\
    used s0 = 0 /\ num s0 = 0 /\
    forall ops s live,
      PoolAllocator.run T ops s0 [] = Some (s, live) ->
      used s = num s * sizeofT T /\
      num s = Z.of_nat (length live) /\
      num s = PoolAllocator.count_allocs ops - PoolAllocator.count_deallocs ops /\
      (PoolAllocator.count_allocs ops = PoolAllocator.count_deallocs ops ->
       used s = used s0 /\ num s = num s0) /\
      (forall p s1,
         PoolAllocator.Allocate T s (sizeofT T) (alignofT T) = (Ok p, s1) ->
         used s1 = used s + sizeofT T /\ num s1 = num s + 1) /\
      (forall p, In p live ->
         used (PoolAllocator.Deallocate T s p) = used s - sizeofT T /\
         num (PoolAllocator.Deallocate T s p) = num s - 1).
Proof.
  intros Hwf Har Hadj Hfit used num.
  destruct (ctor_spec T mem size adj Hwf Har Hadj Hfit h)
    as [s0 [Hc [Hfst [Hrepr _]]]].
  destruct (first_slot_range T mem size adj Hwf Har Hadj Hfit) as [Hb Hub].
  pose proof Hwf as [Hs _].
  set (N := Z.to_nat ((size - adj) / sizeofT T)) in *.
  assert (H0 : used s0 = 0 /\ num s0 = 0).
  { subst used num. cbv beta. rewrite Hfst. split; reflexivity. }
  exists s0. split; [exact Hc|]. split; [apply H0|]. split; [apply H0|].
  intros ops s live Hrun.
  destruct (run_repr T mem size (mem + adj) N Hs Hb Hub ops s0 [] _ s live
              Hrepr Hrun) as [[fl Hr] Hlen].
  cbn [length] in Hlen.
  pose proof Hr as [_ [_ [Hu [Hn _]]]].
  subst used num. cbv beta in *. unfold GetUsedMemory in *.
  destruct H0 as [Hu0 Hn0]. rewrite Hu0, Hn0.
  split; [rewrite Hu, Hn; reflexivity|]. split; [exact Hn|].
  split; [lia|]. split; [intros Hbal; rewrite Hu, Hn; split; nia|]. split.
  - intros p s1 Ha. destruct fl as [|q fl].
    + rewrite (Allocate_empty T mem size (mem + adj) N s live Hr) in Ha.
      discriminate.
    + destruct (Allocate_head T mem size (mem + adj) N Hs Hb Hub s q fl live Hr)
        as [s' [Ha' [_ [Hu' Hn']]]].
      rewrite Ha' in Ha. injection Ha as _ <-. split; assumption.
  - intros p Hp.
    destruct (Deallocate_live T mem size (mem + adj) N Hs Hb Hub s p fl live
                Hr Hp) as [_ [Hu' [Hn' _]]].
    split; assumption.
Qed.

Lemma PoolAllocator_counters_witness :
  let T := example_shape in
  let ops := [PoolAllocator.OpAllocate; PoolAllocator.OpAllocate;
              PoolAllocator.OpDeallocate 4096] in
  exists s0,
    PoolAllocator.ctor T 64 4096 blank_heap = Ok s0 /\
    GetUsedMemory (PoolAllocator.base (fst s0)) = 0 /\
    numAllocations_ (PoolAllocator.base (fst s0)) = 0 /\
    exists s live,
      PoolAllocator.run T ops s0 [] = Some (s, live) /\
      GetUsedMemory (PoolAllocator.base (fst s))
      = numAllocations_ (PoolAllocator.base (fst s)) * 16 /\
      numAllocations_ (PoolAllocator.base (fst s)) = 1.
Proof.
  intros T ops.
  assert (Hwf : wf_shape T).
  { unfold wf_shape, in_u64, sizeof_ptr. rewrite u64_modulus_eq.
    subst T. cbn [sizeofT alignofT example_shape].
    repeat split; try lia; reflexivity. }
  assert (Har : valid_arena 4096 64).
  { unfold valid_arena. rewrite u64_modulus_eq. lia. }
  assert (Hadj : Allocator.CalculateAlignForwardAdjustment 4096 (alignofT T) = Ok 0)
    by reflexivity.
  assert (Hfit : 1 <= (64 - 0) / sizeofT T) by (cbn; lia).
  destruct (PoolAllocator_counters T 4096 64 0 blank_heap Hwf Har Hadj Hfit)
    as [s0 [Hc [Hu [Hn Htrace]]]].
  exists s0. split; [exact Hc|]. split; [exact Hu|]. split; [exact Hn|].
  destruct (PoolAllocator.run T ops s0 []) as [[s live]|] eqn:Er.
  - destruct (Htrace ops s live Er) as [Hused [_ [Hnum _]]].
    exists s, live. split; [reflexivity|]. split; [exact Hused|exact Hnum].
  - exfalso. pose proof Hc as Hc'. vm_compute in Hc'. injection Hc' as Hs0.
    rewrite <- Hs0 in Er. vm_compute in Er. discriminate Er.
Defined.

(** ** The precondition of the constructor *)

Lemma ctor_total T mem size adj h :
  Allocator.CalculateAlignForwardAdjustment mem (alignofT T) = Ok adj ->
  let r := PoolAllocator.thread T
             (PoolAllocator.iterations (PoolAllocator.numObjects T size adj))
             h (wrap64 (mem + adj)) in
  PoolAllocator.ctor T size mem h
  = Ok ({| PoolAllocator.base := Allocator_ctor size mem;
           PoolAllocator.freeBlocks_ := wrap64 (mem + adj) |},
        store_ptr (fst r) (snd r) nullptr).
Proof.
  intros Hadj r. unfold PoolAllocator.ctor. rewrite Hadj. cbn [bind].
  subst r. destruct (PoolAllocator.thread T _ h (wrap64 (mem + adj))).
  reflexivity.
Qed.

Lemma thread_log T n : forall h fb,
  exists new, stores (fst (PoolAllocator.thread T n h fb)) = new ++ stores h.
Proof.
  induction n as [|n IH]; intros h fb.
  - exists []. reflexivity.
  - cbn [PoolAllocator.thread].
    destruct (IH (store_ptr h fb (wrap64 (fb + sizeofT T)))
                 (load_ptr (store_ptr h fb (wrap64 (fb + sizeofT T))) fb))
      as [new Hnew].
    exists (new ++ [fb]). rewrite Hnew. cbn [store_ptr stores].
    rewrite <- app_assoc. reflexivity.
Qed.

Lemma thread_log_first T n h fb :
  exists new,
    stores (fst (PoolAllocator.thread T (S n) h fb)) = new ++ fb :: stores h.
Proof.
  cbn [PoolAllocator.thread].
  destruct (thread_log T n (store_ptr h fb (wrap64 (fb + sizeofT T)))
              (load_ptr (store_ptr h fb (wrap64 (fb + sizeofT T))) fb))
    as [new Hnew].
  exists new. rewrite Hnew. reflexivity.
Qed.

Lemma thread_log_second T n h fb :
  exists new,
    stores (fst (PoolAllocator.thread T (S (S n)) h fb))
    = new ++ wrap64 (fb + sizeofT T) :: fb :: stores h.
Proof.
  cbn [PoolAllocator.thread].
  rewrite (load_store_same h fb) by apply wrap64_range.
  set (h1 := store_ptr h fb (wrap64 (fb + sizeofT T))).
  set (w := wrap64 (fb + sizeofT T)).
  set (h2 := store_ptr h1 w (wrap64 (w + sizeofT T))).
  destruct (thread_log T n h2 (load_ptr h2 w)) as [new Hnew].
  exists new. rewrite Hnew. reflexivity.
Qed.

(** An element size that the alignment divides leaves room for one alignment
    below [2^64]. *)
Lemma sizeof_plus_align T :
  wf_shape T -> size_multiple_of_alignment T ->
  sizeofT T + alignofT T <= u64_modulus.
Proof.
  intros [Hs [Hsu [Hal Hp]]] Hdiv. unfold size_multiple_of_alignment in Hdiv.
  destruct (alignment_exponent (alignofT T) Hal Hp) as [k [Hk Heq]].
  pose proof (pow2_divides_modulus k Hk) as Hm. rewrite <- Heq in Hm.
  pose proof (alignment_pos (alignofT T) Hal Hp) as Hpos.
  apply Z.mod_divide in Hm; [|lia]. apply Z.mod_divide in Hdiv; [|lia].
  destruct Hm as [c1 Hc1]. destruct Hdiv as [c2 Hc2].
  unfold in_u64 in *.
  assert (Hc : c2 < c1).
  { apply (Z.mul_lt_mono_pos_r (alignofT T)); [exact Hpos|]. lia. }
  rewrite Hc1, Hc2. nia.
Qed.

Lemma ctor_escapes T mem size adj h :
  wf_shape T -> size_multiple_of_alignment T -> valid_arena mem size ->
  Allocator.CalculateAlignForwardAdjustment mem (alignofT T) = Ok adj ->
  ~ 1 <= (size - adj) / sizeofT T ->
  exists s0 new a,
    PoolAllocator.ctor T size mem h = Ok s0 /\
    stores (snd s0) = new ++ stores h /\
    In a new /\ ~ store_in_arena mem size a.
Proof.
  intros Hwf Hmul Har Hadj Hno.
  pose proof (adj_range T mem adj Hwf Hadj) as Hadjr.
  pose proof (sizeof_plus_align T Hwf Hmul) as Hsa.
  pose proof Hwf as [Hs [Hsu [Hal _]]].
  pose proof Har as [Hm [Hsi Hend]].
  unfold sizeof_ptr, in_u64 in *.
  pose proof (ctor_total T mem size adj h Hadj) as Hct. cbv zeta in Hct.
  set (fb0 := wrap64 (mem + adj)) in *.
  set (it := PoolAllocator.iterations (PoolAllocator.numObjects T size adj)) in *.
  destruct (Z_le_dec mem fb0) as [H1|H1];
    [destruct (Z_le_dec (fb0 + 8) (mem + size)) as [H2|H2]|].
  - (* the first store is inside: the loop goes on to a second one *)
    assert (Hfb : fb0 = mem + adj).
    { subst fb0. unfold wrap64.
      destruct (Z_lt_ge_dec (mem + adj) u64_modulus) as [Hlt|Hge].
      - apply Z.mod_small. lia.
      - exfalso.
        assert (E : (mem + adj) mod u64_modulus = mem + adj - u64_modulus).
        { symmetry. apply (Z.mod_unique _ _ 1); lia. }
        unfold wrap64 in H1. rewrite E in H1. lia. }
    assert (Hd : 0 <= size - adj < sizeofT T).
    { split; [lia|].
      destruct (Z_lt_ge_dec (size - adj) (sizeofT T)) as [Hlt|Hge]; [exact Hlt|].
      exfalso. apply Hno.
      apply Z.div_le_lower_bound; lia. }
    assert (Hit : exists k, it = S (S k)).
    { subst it. unfold PoolAllocator.iterations, PoolAllocator.numObjects.
      rewrite (wrap64_small (size - adj)) by (unfold in_u64; lia).
      rewrite Z.div_small by lia.
      change (wrap64 (0 - 1)) with 18446744073709551615.
      exists (Z.to_nat 18446744073709551613).
      rewrite <- !Z2Nat.inj_succ by lia. f_equal. }
    destruct Hit as [k Hk]. rewrite Hk in Hct.
    destruct (thread_log_second T k h fb0) as [new Hnew].
    eexists. exists (snd (PoolAllocator.thread T (S (S k)) h fb0)
                     :: new ++ [wrap64 (fb0 + sizeofT T); fb0]).
    exists (wrap64 (fb0 + sizeofT T)).
    split; [exact Hct|]. cbn [snd store_ptr stores]. split; [|split].
    + rewrite Hnew. cbn [app]. rewrite <- app_assoc. reflexivity.
    + right. apply in_or_app. right. left. reflexivity.
    + unfold store_in_arena, sizeof_ptr. rewrite Hfb. unfold wrap64.
      destruct (Z_lt_ge_dec (mem + adj + sizeofT T) u64_modulus) as [Hlt|Hge].
      * rewrite Z.mod_small by lia. lia.
      * assert (E : (mem + adj + sizeofT T) mod u64_modulus
                    = mem + adj + sizeofT T - u64_modulus).
        { symmetry. apply (Z.mod_unique _ _ 1); lia. }
        rewrite E. lia.
  - (* the first store already crosses the end of the arena *)
    destruct it as [|k].
    + eexists. exists [fb0], fb0. split; [exact Hct|].
      cbn [PoolAllocator.thread fst snd store_ptr stores app].
      split; [reflexivity|]. split; [left; reflexivity|].
      unfold store_in_arena, sizeof_ptr. lia.
    + destruct (thread_log_first T k h fb0) as [new Hnew].
      eexists. exists (snd (PoolAllocator.thread T (S k) h fb0) :: new ++ [fb0]).
      exists fb0. split; [exact Hct|]. cbn [snd store_ptr stores].
      split; [|split].
      * rewrite Hnew. cbn [app]. rewrite <- app_assoc. reflexivity.
      * right. apply in_or_app. right. left. reflexivity.
      * unfold store_in_arena, sizeof_ptr. lia.
  - (* the first store lies below the arena *)
    destruct it as [|k].
    + eexists. exists [fb0], fb0. split; [exact Hct|].
      cbn [PoolAllocator.thread fst snd store_ptr stores app].
      split; [reflexivity|]. split; [left; reflexivity|].
      unfold store_in_arena, sizeof_ptr. lia.
    + destruct (thread_log_first T k h fb0) as [new Hnew].
      eexists. exists (snd (PoolAllocator.thread T (S k) h fb0) :: new ++ [fb0]).
      exists fb0. split; [exact Hct|]. cbn [snd store_ptr stores].
      split; [|split].
      * rewrite Hnew. cbn [app]. rewrite <- app_assoc. reflexivity.
      * right. apply in_or_app. right. left. reflexivity.
      * unfold store_in_arena, sizeof_ptr. lia.
Qed.

(** C10.  Over a valid arena the constructor of [PoolAllocator<T>] is
    well-behaved exactly when one element fits, that is when
    [floor((size - adjustment) / sizeof(T)) >= 1].  Then the threading loop
    runs [numObjects - 1] times, every pointer store of the constructor lies
    inside the arena, no byte outside the arena changes, and the last slot's
    [next] is null.  When no element fits, [numObjects - 1] is not the
    number of remaining slots (it wraps, or is computed from a wrapped
    [size - adjustment]) and the constructor performs a pointer store that is
    not inside the arena. *)
Theorem PoolAllocator_ctor_needs_one_slot T mem size adj h :
  wf_shape T -> size_multiple_of_alignment T -> valid_arena mem size ->
  Allocator.CalculateAlignForwardAdjustment mem (alignofT T) = Ok adj ->
  exists s0 new,
    PoolAllocator.ctor T size mem h = Ok s0 /\
    stores (snd s0) = new ++ stores h /\
    (1 <= (size - adj) / sizeofT T ->
       PoolAllocator.iterations (PoolAllocator.numObjects T size adj)
         = Z.to_nat ((size - adj) / sizeofT T - 1) /\
       length new = Z.to_nat ((size - adj) / sizeofT T) /\
       Forall (store_in_arena mem size) new /\
       (forall x, x < mem \/ mem + size <= x ->
                  bytes (snd s0) x = bytes h x) /\
       load_ptr (snd s0)
         (mem + adj + ((size - adj) / sizeofT T - 1) * sizeofT T) = nullptr) /\
    (~ 1 <= (size - adj) / sizeofT T ->
       exists a, In a new /\ ~ store_in_arena mem size a).
Proof.
  intros Hwf Hmul Har Hadj.
  destruct (Z_le_dec 1 ((size - adj) / sizeofT T)) as [Hfit|Hno].
  - destruct (ctor_spec T mem size adj Hwf Har Hadj Hfit h)
      as [s0 [Hc [_ [_ [Hst [Hfr Hld]]]]]].
    pose proof (slots_fit T size adj Hwf Hfit) as [Hone [Hf [Hn Hq]]].
    pose proof (adj_range T mem adj Hwf Hadj) as Hadjr.
    pose proof Hwf as [Hs _]. unfold sizeof_ptr in Hs.
    set (n := Z.to_nat ((size - adj) / sizeofT T)) in *.
    exists s0, (rev (slots T (mem + adj) n)).
    split; [exact Hc|]. split; [exact Hst|]. split; [|intros Hno; contradiction].
    intros _. split.
    { rewrite (iterations_exact T mem size adj Hwf Har Hadj Hfit). fold n. lia. }
    split; [rewrite length_rev; apply slots_length|]. split.
    { apply Forall_forall. intros x Hx. apply in_rev in Hx.
      pose proof (slots_bounds T (mem + adj) n x ltac:(lia) Hx) as [H1 H2].
      unfold store_in_arena, sizeof_ptr. lia. }
    split.
    { intros x Hx. apply Hfr. lia. }
    replace ((size - adj) / sizeofT T - 1) with (Z.of_nat (pred n)) by lia.
    exact Hld.
  - destruct (ctor_escapes T mem size adj h Hwf Hmul Har Hadj Hno)
      as [s0 [new [a [Hc [Hst [Hin Hout]]]]]].
    exists s0, new. split; [exact Hc|]. split; [exact Hst|].
    split; [intros Hfit; contradiction|].
    intros _. exists a. split; assumption.
Qed.

Lemma PoolAllocator_ctor_needs_one_slot_witness :
  let T := {| sizeofT := 16; alignofT := 8 |} in
  let h := {| bytes := fun _ => 0; stores := [] |} in
  (exists s0 new,
     PoolAllocator.ctor T 64 4096 h = Ok s0 /\
     stores (snd s0) = new ++ [] /\
     Forall (store_in_arena 4096 64) new /\
     load_ptr (snd s0) (4096 + 0 + ((64 - 0) / 16 - 1) * 16) = nullptr) /\
  (exists s0 new a,
     PoolAllocator.ctor T 8 4096 h = Ok s0 /\
     stores (snd s0) = new ++ [] /\
     In a new /\ ~ store_in_arena 4096 8 a).
Proof.
  intros T h.
  assert (Hwf : wf_shape T).
  { unfold wf_shape, in_u64, sizeof_ptr. rewrite u64_modulus_eq.
    subst T. cbn [sizeofT alignofT].
    repeat split; try lia; reflexivity. }
  assert (Hmul : size_multiple_of_alignment T) by reflexivity.
  assert (Hadj : Allocator.CalculateAlignForwardAdjustment 4096 (alignofT T) = Ok 0)
    by reflexivity.
  split.
  - assert (Har : valid_arena 4096 64).
    { unfold valid_arena. rewrite u64_modulus_eq. lia. }
    destruct (PoolAllocator_ctor_needs_one_slot T 4096 64 0 h Hwf Hmul Har Hadj)
      as [s0 [new [Hc [Hst [Hyes _]]]]].
    assert (Hfit : 1 <= (64 - 0) / sizeofT T) by (cbn; lia).
    destruct (Hyes Hfit) as [_ [_ [Hall [_ Hld]]]].
    exists s0, new. exact (conj Hc (conj Hst (conj Hall Hld))).
  - assert (Har : valid_arena 4096 8).
    { unfold valid_arena. rewrite u64_modulus_eq. lia. }
    destruct (PoolAllocator_ctor_needs_one_slot T 4096 8 0 h Hwf Hmul Har Hadj)
      as [s0 [new [Hc [Hst [_ Hno]]]]].
    assert (Hnofit : ~ 1 <= (8 - 0) / sizeofT T) by (cbn; lia).
    destruct (Hno Hnofit) as [a [Hin Hout]].
    exists s0, new, a. exact (conj Hc (conj Hst (conj Hin Hout))).
Defined.

(** ** Mismatched requests *)

(** C6.  [PoolAllocator<T>::Allocate(size, alignment)] with a size other than
    [sizeof(T)] or an alignment other than [alignof(T)] fails with
    [SizeMismatch], and the pool and the memory are as they were. *)
Theorem PoolAllocator_Allocate_size_mismatch T s allocatedSize alignment :
  allocatedSize <> sizeofT T \/ alignment <> alignofT T ->
  PoolAllocator.Allocate T s allocatedSize alignment = (Fail SizeMismatch, s).
Proof.
  intros Hne. destruct s as [a hp]. unfold PoolAllocator.Allocate.
  assert (Hc : (allocatedSize =? sizeofT T) && (alignment =? alignofT T) = false).
  { apply andb_false_iff. destruct Hne as [H|H]; [left|right];
      apply Z.eqb_neq; exact H. }
  rewrite Hc. reflexivity.
Qed.

Lemma PoolAllocator_Allocate_size_mismatch_witness :
  let T := {| sizeofT := 16; alignofT := 8 |} in
  let s := ({| PoolAllocator.base := Allocator_ctor 64 4096;
               PoolAllocator.freeBlocks_ := 4096 |},
            {| bytes := fun _ => 0; stores := [] |}) in
  PoolAllocator.Allocate T s 24 8 = (Fail SizeMismatch, s) /\
  PoolAllocator.Allocate T s 16 4 = (Fail SizeMismatch, s).
Proof.
  intros T s. split.
  - apply (PoolAllocator_Allocate_size_mismatch T s 24 8).
    left. cbn. lia.
  - apply (PoolAllocator_Allocate_size_mismatch T s 16 4).
    right. cbn. lia.
Defined.

(** ** Teardown *)

Lemma Allocator_dtor_cases a :
  (numAllocations_ a = 0 /\ usedMemory_ a = 0 /\
   Allocator_dtor a = Ok {| start_ := nullptr; size_ := 0;
                            usedMemory_ := usedMemory_ a;
                            numAllocations_ := numAllocations_ a |}) \/
  ((numAllocations_ a <> 0 \/ usedMemory_ a <> 0) /\
   Allocator_dtor a = Fail LeakAtTeardown).
Proof.
  unfold Allocator_dtor.
  destruct (Z.eqb_spec (numAllocations_ a) 0) as [Hn|Hn];
    destruct (Z.eqb_spec (usedMemory_ a) 0) as [Hu|Hu]; cbn [andb neko_assert bind].
  - left. repeat split; assumption.
  - right. split; [right; exact Hu|reflexivity].
  - right. split; [left; exact Hn|reflexivity].
  - right. split; [left; exact Hn|reflexivity].
Qed.

Lemma destroy_via_base a :
  (destroy a = Fail LeakAtTeardown
   <-> Allocator_dtor (base_of a) = Fail LeakAtTeardown) /\
  ((exists a', destroy a = Ok a')
   <-> exists b, Allocator_dtor (base_of a) = Ok b).
Proof.
  destruct a as [a|a|a|a|a];
    unfold destroy, base_of, LinearAllocator_dtor, StackAllocator_dtor,
      FreeListAllocator_dtor, ProxyAllocator_dtor, PoolAllocator.dtor;
    cbn [PoolAllocator.base PoolAllocator.freeBlocks_ linear_base stack_base
         freelist_base];
    match goal with
    | |- context [Allocator_dtor ?b] => destruct (Allocator_dtor b) as [b'|e]
    end; cbn [bind]; (split; split); intros H;
    lazymatch type of H with
    | Ok _ = Fail _ => discriminate H
    | Fail _ = Fail _ => injection H as ->; reflexivity
    | exists _, Ok _ = Ok _ => eexists; reflexivity
    | exists _, Fail _ = Ok _ => destruct H as [x Hx]; discriminate Hx
    end.
Qed.

(** C8.  Destroying an allocator of any strategy fails with [LeakAtTeardown]
    exactly when [numAllocations] or [usedMemory] is nonzero, and succeeds
    exactly when both are zero. *)
Theorem destroy_leak_at_teardown (a : AnyAllocator) :
  (destroy a = Fail LeakAtTeardown <->
   numAllocations_ (base_of a) <> 0 \/ usedMemory_ (base_of a) <> 0) /\
  ((exists a', destroy a = Ok a') <->
   numAllocations_ (base_of a) = 0 /\ usedMemory_ (base_of a) = 0).
Proof.
  destruct (destroy_via_base a) as [Hfail Hok].
  rewrite Hfail, Hok. split.
  - destruct (Allocator_dtor_cases (base_of a)) as [[Hn [Hu E]]|[Hne E]];
      rewrite E; split; intros H; try discriminate H; try reflexivity; try exact Hne.
    destruct H as [H|H]; contradiction.
  - destruct (Allocator_dtor_cases (base_of a)) as [[Hn [Hu E]]|[Hne E]];
      rewrite E; split; intros H.
    + split; assumption.
    + eexists. reflexivity.
    + destruct H as [b H]. discriminate H.
    + destruct H as [H1 H2]. destruct Hne as [Hne|Hne]; contradiction.
Qed.

(** ** The proxy *)

(** The pool never moves or resizes its arena. *)
Lemma Pool_keeps_arena T : Proxy.keeps_arena (H := PoolImpl T).
Proof.
  intros [a hp] [sz al|p];
    cbn [Proxy.direct impl_Allocate impl_Deallocate impl_base PoolImpl fst snd].
  - unfold PoolAllocator.Allocate.
    destruct (neko_assert _ SizeMismatch); [|split; reflexivity].
    destruct (if PoolAllocator.freeBlocks_ a =? nullptr
              then neko_assert false OutOfMemory else Ok tt);
      split; reflexivity.
  - split; reflexivity.
Qed.

Section ProxyBodies.

Context {S : Type} `{AllocatorImpl S}.
Variables (A : Proxy.AllocateBody S) (D : Proxy.DeallocateBody S).
Hypothesis A_D_forward : Proxy.forwards A D.
Hypothesis A_D_keep : Proxy.keeps_own_arena A D.

Lemma directs_keep_arena calls :
  Proxy.keeps_arena ->
  forall s : S,
    start_ (impl_base (fold_left Proxy.direct calls s)) = start_ (impl_base s) /\
    size_ (impl_base (fold_left Proxy.direct calls s)) = size_ (impl_base s).
Proof using Type.
  intros Hk. induction calls as [|c calls IH]; intros s; [split; reflexivity|].
  cbn [fold_left]. destruct (IH (Proxy.direct s c)) as [H1 H2].
  destruct (Hk s c) as [H3 H4]. split; congruence.
Qed.

(** One call through forwarding bodies is the same call on the wrapped
    allocator. *)
Lemma call_with_referent (w : World S) c :
  referent (Proxy.call_with A D w c) = Proxy.direct (referent w) c.
Proof using A_D_forward.
  destruct A_D_forward as [HA HD]. destruct c as [sz al|p];
    cbn [Proxy.call_with Proxy.direct].
  - apply HA.
  - apply HD.
Qed.

Lemma calls_with_forward calls : forall w : World S,
  referent (fold_left (Proxy.call_with A D) calls w)
  = fold_left Proxy.direct calls (referent w) /\
  start_ (proxy_base (self (fold_left (Proxy.call_with A D) calls w)))
  = start_ (proxy_base (self w)) /\
  size_ (proxy_base (self (fold_left (Proxy.call_with A D) calls w)))
  = size_ (proxy_base (self w)).
Proof using A_D_forward A_D_keep.
  induction calls as [|c calls IH]; intros w; [repeat split; reflexivity|].
  cbn [fold_left]. destruct (IH (Proxy.call_with A D w c)) as [H1 [H2 H3]].
  rewrite H1, H2, H3, call_with_referent.
  split; [reflexivity|].
  destruct A_D_keep as [KA KD]. destruct c as [sz al|p]; cbn [Proxy.call_with].
  - apply KA.
  - apply KD.
Qed.

End ProxyBodies.

(** The bodies that forward and leave the proxy untouched are among the
    forwarding ones. *)
Lemma verbatim_bodies_forward {S : Type} `{AllocatorImpl S} :
  Proxy.forwards Proxy.Allocate Proxy.Deallocate /\
  Proxy.keeps_own_arena Proxy.Allocate Proxy.Deallocate.
Proof.
  unfold Proxy.forwards, Proxy.keeps_own_arena, Proxy.Allocate, Proxy.Deallocate.
  split; split; intros w; intros;
    try destruct (impl_Allocate (referent w) sz al); split; reflexivity.
Qed.

(** C7 (as the code has it).  A proxy built over a pool starts with the
    pool's size and start, and with its own [usedMemory_] at 0 whatever the
    pool holds: [GetUsedMemory()] on the proxy reads that counter, not the
    pool's.  For any bodies of [ProxyAllocator::Allocate] and [Deallocate]
    that forward to the wrapped allocator and leave the proxy's [start_] and
    [size_] alone, and any sequence of calls through the proxy, [GetSize()]
    and [GetStart()] on the proxy return the wrapped allocator's values and
    the wrapped allocator changes exactly as by the same calls made directly
    on it. *)
Theorem ProxyAllocator_forwards T (s : PoolAllocator.state)
    (A : Proxy.AllocateBody PoolAllocator.state)
    (D : Proxy.DeallocateBody PoolAllocator.state)
    (calls : list Proxy.Call) :
  (Proxy.GetSize (Proxy.ctor (H := PoolImpl T) s)
   = GetSize (PoolAllocator.base (fst s)) /\
   Proxy.GetStart (Proxy.ctor (H := PoolImpl T) s)
   = GetStart (PoolAllocator.base (fst s)) /\
   Proxy.GetUsedMemory (Proxy.ctor (H := PoolImpl T) s) = 0 /\
   referent (Proxy.ctor (H := PoolImpl T) s) = s) /\
  (Proxy.forwards (H := PoolImpl T) A D ->
   Proxy.keeps_own_arena A D ->
   let w := fold_left (Proxy.call_with A D) calls
              (Proxy.ctor (H := PoolImpl T) s) in
   Proxy.GetSize w = GetSize (PoolAllocator.base (fst (referent w))) /\
   Proxy.GetStart w = GetStart (PoolAllocator.base (fst (referent w))) /\
   referent w = fold_left (Proxy.direct (H := PoolImpl T)) calls s).
Proof.
  split; [repeat split; reflexivity|].
  intros Hf Hk w.
  destruct (calls_with_forward (H := PoolImpl T) A D Hf Hk calls
              (Proxy.ctor (H := PoolImpl T) s)) as [Href [Hst Hsi]].
  fold w in Href, Hst, Hsi.
  destruct (directs_keep_arena (H := PoolImpl T) calls (Pool_keeps_arena T) s)
    as [Hpst Hpsi].
  cbn [Proxy.ctor referent self proxy_base Allocator_ctor start_ size_
       impl_base PoolImpl] in Href, Hst, Hsi, Hpst, Hpsi.
  unfold Proxy.GetSize, Proxy.GetStart, GetSize, GetStart.
  rewrite Hst, Hsi, Href.
  split; [|split; [|reflexivity]].
  - unfold GetSize. symmetry. exact Hpsi.
  - unfold GetStart. symmetry. exact Hpst.
Qed.

Lemma ProxyAllocator_forwards_witness :
  let s : PoolAllocator.state :=
    ({| PoolAllocator.base := Allocator_ctor 64 4096;
        PoolAllocator.freeBlocks_ := 4096 |}, blank_heap) in
  let calls := [Proxy.CallAllocate 16 8; Proxy.CallDeallocate 4096] in
  let w := fold_left
             (Proxy.call_with
                (Proxy.Allocate (H := PoolImpl example_shape))
                (Proxy.Deallocate (H := PoolImpl example_shape))) calls
             (Proxy.ctor (H := PoolImpl example_shape) s) in
  Proxy.GetUsedMemory (Proxy.ctor (H := PoolImpl example_shape) s) = 0 /\
  Proxy.GetSize w = GetSize (PoolAllocator.base (fst (referent w))) /\
  Proxy.GetStart w = GetStart (PoolAllocator.base (fst (referent w))) /\
  referent w = fold_left (Proxy.direct (H := PoolImpl example_shape)) calls s.
Proof.
  intros s calls w.
  destruct (ProxyAllocator_forwards example_shape s
              (Proxy.Allocate (H := PoolImpl example_shape))
              (Proxy.Deallocate (H := PoolImpl example_shape)) calls)
    as [[_ [_ [Hu _]]] Hseq].
  destruct (verbatim_bodies_forward (H := PoolImpl example_shape)) as [Hf Hk].
  exact (conj Hu (Hseq Hf Hk)).
Defined.

(** C7 as stated fails for [GetUsedMemory()]: a proxy built over a pool
    that holds one allocation reports 0 bytes used while the pool reports
    16.  Only the two constructors, the pool's [Allocate] and the accessors
    are involved. *)
Lemma ProxyAllocator_used_memory_differs :
  exists s0 p s1,
    PoolAllocator.ctor example_shape 64 4096 blank_heap = Ok s0 /\
    PoolAllocator.Allocate example_shape s0 16 8 = (Ok p, s1) /\
    Proxy.GetUsedMemory (Proxy.ctor (H := PoolImpl example_shape) s1) = 0 /\
    GetUsedMemory
      (PoolAllocator.base
         (fst (referent (Proxy.ctor (H := PoolImpl example_shape) s1))))
    = 16 /\
    Proxy.GetUsedMemory (Proxy.ctor (H := PoolImpl example_shape) s1)
    <> GetUsedMemory
         (PoolAllocator.base
            (fst (referent (Proxy.ctor (H := PoolImpl example_shape) s1)))).
Proof.
  destruct (PoolAllocator.ctor example_shape 64 4096 blank_heap) as [s0|e] eqn:Ec;
    [|vm_compute in Ec; discriminate Ec].
  destruct (PoolAllocator.Allocate example_shape s0 16 8) as [[p|e] s1] eqn:Ea.
  - exists s0, p, s1. split; [reflexivity|]. split; [exact Ea|].
    vm_compute in Ec. injection Ec as <-.
    vm_compute in Ea. injection Ea as <- <-.
    vm_compute. repeat split; try reflexivity. intros E. discriminate E.
  - exfalso. vm_compute in Ec. injection Ec as <-.
    vm_compute in Ea. discriminate Ea.
Qed.

(** ** Worked examples *)

Example adjustment_examples :
  Allocator.CalculateAlignForwardAdjustment 4099 8 = Ok 5 /\
  Allocator.CalculateAlignForwardAdjustment 4096 8 = Ok 0 /\
  Allocator.AlignForward 4099 8 = Ok 4104 /\
  Allocator.CalculateAlignForwardAdjustmentWithHeader 4099 8 9 = Ok 13 /\
  Allocator.AlignForwardWithHeader 4099 8 9 = Ok 4112 /\
  Allocator.CalculateAlignForwardAdjustment 4099 12 = Fail InvalidAlignment.
Proof. vm_compute. repeat split; reflexivity. Qed.

(** The scenario of the specification: a 1024-byte arena of 16-byte elements
    gives 64 slots; 64 allocations succeed and the 65th fails; releasing
    slot 30 and allocating again returns that slot. *)
Example pool_of_64_slots :
  match PoolAllocator.ctor example_shape 1024 4096 blank_heap with
  | Fail _ => False
  | Ok s0 =>
      PoolAllocator.free_list 100 (snd s0) (PoolAllocator.freeBlocks_ (fst s0))
      = slots example_shape 4096 64 /\
      match PoolAllocator.Allocate_n example_shape 64 s0 with
      | (Fail _, _) => False
      | (Ok ps, sN) =>
          ps = slots example_shape 4096 64 /\
          fst (PoolAllocator.Allocate example_shape sN 16 8) = Fail OutOfMemory /\
          nth 30 ps 0 = 4576 /\
          fst (PoolAllocator.Allocate example_shape
                 (PoolAllocator.Deallocate example_shape sN (nth 30 ps 0)) 16 8)
          = Ok 4576
      end
  end.
Proof. vm_compute. repeat split; reflexivity. Qed.

(** A pool over an arena that does not start aligned, and a client trace. *)
Example pool_trace :
  match PoolAllocator.ctor example_shape 100 4099 blank_heap with
  | Fail _ => False
  | Ok s0 =>
      PoolAllocator.free_list 100 (snd s0) (PoolAllocator.freeBlocks_ (fst s0))
      = [4104; 4120; 4136; 4152; 4168] /\
      match PoolAllocator.run example_shape
              [PoolAllocator.OpAllocate; PoolAllocator.OpAllocate;
               PoolAllocator.OpDeallocate 4104; PoolAllocator.OpAllocate;
               PoolAllocator.OpDeallocate 4120] s0 [] with
      | None => False
      | Some (s, live) =>
          live = [4104] /\
          usedMemory_ (PoolAllocator.base (fst s)) = 16 /\
          numAllocations_ (PoolAllocator.base (fst s)) = 1 /\
          PoolAllocator.free_list 100 (snd s) (PoolAllocator.freeBlocks_ (fst s))
          = [4120; 4136; 4152; 4168]
      end
  end.
Proof. vm_compute. repeat split; reflexivity. Qed.

(** ** More on the alignment primitives *)

(** X1.  For a 64-bit alignment, [CalculateAlignForwardAdjustment] returns an
    adjustment exactly when the alignment is 0 or a power of two, whatever
    the address, and fails with [InvalidAlignment] for every other
    alignment. *)
Theorem CalculateAlignForwardAdjustment_accepts_iff address alignment :
  in_u64 alignment ->
  ((exists adj, Allocator.CalculateAlignForwardAdjustment address alignment = Ok adj)
   <-> alignment = 0 \/ is_pow2 alignment = true) /\
  (Allocator.CalculateAlignForwardAdjustment address alignment = Fail InvalidAlignment
   <-> alignment <> 0 /\ is_pow2 alignment = false).
Proof.
  intros Hal.
  assert (Hpass : Z.land alignment (wrap64 (alignment - 1)) = 0 ->
                  exists adj,
                    Allocator.CalculateAlignForwardAdjustment address alignment
                    = Ok adj).
  { intros Hz. unfold Allocator.CalculateAlignForwardAdjustment.
    rewrite Hz. cbn [Z.eqb neko_assert bind].
    destruct (_ =? alignment); eexists; reflexivity. }
  destruct (Z.eq_dec alignment 0) as [E0|E0].
  - subst alignment. destruct (Hpass eq_refl) as [adj Hadj].
    rewrite Hadj. split; split; intros H; try discriminate H.
    + left. reflexivity.
    + exists adj. reflexivity.
    + destruct H as [H _]. contradiction.
  - destruct (is_pow2 alignment) eqn:Ep.
    + destruct (alignment_exponent alignment Hal Ep) as [k [Hk Heq]].
      assert (Hz : Z.land alignment (wrap64 (alignment - 1)) = 0)
        by (rewrite Heq; apply pow2_test_passes; exact Hk).
      destruct (Hpass Hz) as [adj Hadj]. rewrite Hadj.
      split; split; intros H; try discriminate H.
      * right. reflexivity.
      * exists adj. reflexivity.
      * destruct H as [_ H]. discriminate H.
    + assert (Hpos : 0 < alignment) by (unfold in_u64 in Hal; lia).
      rewrite (CalculateAlignForwardAdjustment_rejects address alignment
                 Hal Hpos Ep).
      split; split; intros H.
      * destruct H as [adj H]. discriminate H.
      * destruct H as [H|H]; [contradiction|discriminate H].
      * split; [exact E0|reflexivity].
      * reflexivity.
Qed.

Lemma CalculateAlignForwardAdjustment_accepts_iff_witness :
  ((exists adj, Allocator.CalculateAlignForwardAdjustment 4099 24 = Ok adj)
   <-> 24 = 0 \/ is_pow2 24 = true) /\
  (Allocator.CalculateAlignForwardAdjustment 4099 24 = Fail InvalidAlignment
   <-> 24 <> 0 /\ is_pow2 24 = false).
Proof.
  apply (CalculateAlignForwardAdjustment_accepts_iff 4099 24).
  unfold in_u64. rewrite u64_modulus_eq. lia.
Defined.

Lemma AlignForward_value address alignment :
  in_u64 address -> in_u64 alignment -> is_pow2 alignment = true ->
  exists adj,
    0 <= adj < alignment /\ (address + adj) mod alignment = 0 /\
    (forall o, 0 <= o -> (address + o) mod alignment = 0 -> adj <= o) /\
    Allocator.CalculateAlignForwardAdjustment address alignment = Ok adj /\
    Allocator.AlignForward address alignment = Ok (wrap64 (address + adj)) /\
    wrap64 (address + adj) mod alignment = 0.
Proof.
  intros Ha Hal Hp.
  pose proof (adjustment_closed_form address alignment Hal Hp) as Hcf.
  pose proof (adjustment_facts address alignment Hal Hp) as Hf.
  cbv zeta in Hf. destruct Hf as [Hr [Hm [Hmin _]]].
  eexists. split; [exact Hr|]. split; [exact Hm|]. split; [exact Hmin|].
  split; [exact Hcf|]. split.
  - unfold Allocator.AlignForward. rewrite Hcf. reflexivity.
  - destruct (alignment_exponent alignment Hal Hp) as [k [Hk Heq]].
    rewrite Heq. rewrite wrap64_mod_pow2 by exact Hk. rewrite <- Heq. exact Hm.
Qed.

(** X2.  [AlignForward] is idempotent: the address it returns for a power-of-two
    alignment needs no adjustment and is returned unchanged when aligned
    again; it equals the argument exactly when the argument was aligned. *)
Theorem AlignForward_idempotent address alignment r :
  in_u64 address -> in_u64 alignment -> is_pow2 alignment = true ->
  Allocator.AlignForward address alignment = Ok r ->
  Allocator.CalculateAlignForwardAdjustment r alignment = Ok 0 /\
  Allocator.AlignForward r alignment = Ok r /\
  (r = address <-> address mod alignment = 0).
Proof.
  intros Ha Hal Hp Hr.
  destruct (AlignForward_value address alignment Ha Hal Hp)
    as [adj [Hrange [Hm [Hmin [Hc [Hf Hrm]]]]]].
  rewrite Hf in Hr. injection Hr as <-.
  set (r := wrap64 (address + adj)) in *.
  assert (Hru : in_u64 r) by apply wrap64_range.
  pose proof (adjustment_closed_form r alignment Hal Hp) as Hcr.
  pose proof (alignment_pos alignment Hal Hp) as Hpos.
  rewrite Hrm, Z.sub_0_r, Z.mod_same in Hcr by lia.
  split; [exact Hcr|]. split.
  - unfold Allocator.AlignForward. rewrite Hcr. cbn [bind].
    rewrite Z.add_0_r. rewrite wrap64_small by exact Hru. reflexivity.
  - split.
    + intros E. rewrite <- E. exact Hrm.
    + intros E. pose proof (Hmin 0 ltac:(lia)) as H0.
      rewrite Z.add_0_r in H0. specialize (H0 E).
      assert (adj = 0) by lia. subst adj. subst r.
      rewrite Z.add_0_r. apply wrap64_small. exact Ha.
Qed.

Lemma AlignForward_idempotent_witness :
  Allocator.CalculateAlignForwardAdjustment 4104 8 = Ok 0 /\
  Allocator.AlignForward 4104 8 = Ok 4104 /\
  (4104 = 4099 <-> 4099 mod 8 = 0).
Proof.
  apply (AlignForward_idempotent 4099 8 4104).
  - unfold in_u64. rewrite u64_modulus_eq. lia.
  - unfold in_u64. rewrite u64_modulus_eq. lia.
  - reflexivity.
  - reflexivity.
Defined.

(** X3.  [AlignForward] is monotone: for a power-of-two alignment and
    addresses [a <= b], with [b + alignment <= 2^64] so that aligning [b]
    does not wrap, the aligned [a] is at most the aligned [b]. *)
Theorem AlignForward_monotone a b alignment ra rb :
  in_u64 a -> in_u64 b -> in_u64 alignment -> is_pow2 alignment = true ->
  a <= b -> b + alignment <= u64_modulus ->
  Allocator.AlignForward a alignment = Ok ra ->
  Allocator.AlignForward b alignment = Ok rb ->
  ra <= rb.
Proof.
  intros Ha Hb Hal Hp Hab Hbw Hra Hrb.
  destruct (AlignForward_value a alignment Ha Hal Hp)
    as [adja [Hrangea [Hma [Hmina [_ [Hfa _]]]]]].
  destruct (AlignForward_value b alignment Hb Hal Hp)
    as [adjb [Hrangeb [Hmb [_ [_ [Hfb _]]]]]].
  rewrite Hfa in Hra. injection Hra as <-.
  rewrite Hfb in Hrb. injection Hrb as <-.
  unfold in_u64 in *.
  rewrite (wrap64_small (b + adjb)) by (unfold in_u64; lia).
  specialize (Hmina (b + adjb - a) ltac:(lia)).
  replace (a + (b + adjb - a)) with (b + adjb) in Hmina by lia.
  specialize (Hmina Hmb).
  rewrite wrap64_small by (unfold in_u64; lia). lia.
Qed.

Lemma AlignForward_monotone_witness : 4104 <= 4112.
Proof.
  apply (AlignForward_monotone 4099 4105 8 4104 4112).
  - unfold in_u64. rewrite u64_modulus_eq. lia.
  - unfold in_u64. rewrite u64_modulus_eq. lia.
  - unfold in_u64. rewrite u64_modulus_eq. lia.
  - reflexivity.
  - lia.
  - rewrite u64_modulus_eq. lia.
  - reflexivity.
  - reflexivity.
Defined.

(** X4.  Without wrap-around ([headerSize + alignment <= 2^64]) the header-aware
    adjustment is the least offset that is at least [headerSize] and makes
    [address + offset] a multiple of the alignment; it is below
    [headerSize + alignment], it differs from the plain adjustment by a
    multiple of the alignment, and it is the plain adjustment itself when
    that one already covers the header. *)
Theorem header_adjustment_least address alignment headerSize adj :
  in_u64 address -> in_u64 alignment -> in_u64 headerSize ->
  is_pow2 alignment = true ->
  headerSize + alignment <= u64_modulus ->
  Allocator.CalculateAlignForwardAdjustmentWithHeader address alignment headerSize
  = Ok adj ->
  headerSize <= adj < headerSize + alignment /\
  (address + adj) mod alignment = 0 /\
  (forall o, headerSize <= o -> (address + o) mod alignment = 0 -> adj <= o) /\
  (forall a0, Allocator.CalculateAlignForwardAdjustment address alignment = Ok a0 ->
     a0 <= adj /\ (adj - a0) mod alignment = 0 /\ (headerSize <= a0 -> adj = a0)).
Proof.
  intros Ha Hal Hh Hp Hb Hadj.
  rewrite (header_adjustment_code address alignment headerSize Ha Hal Hh Hp)
    in Hadj.
  pose proof (header_adjustment_exact_facts address alignment headerSize
                Ha Hal Hh Hp) as Hf.
  cbv zeta in Hf. destruct Hf as [Hge [Hnn [Hub Hm]]].
  pose proof (alignment_pos alignment Hal Hp) as Hpos.
  rewrite wrap64_small in Hadj by (unfold in_u64; lia).
  injection Hadj as <-.
  set (e := header_adjustment_exact address alignment headerSize) in *.
  assert (Hleast : forall o lo, lo <= o -> e < lo + alignment ->
                     (address + o) mod alignment = 0 -> e <= o).
  { intros o lo Hlo Hlt Ho.
    destruct (Z_le_gt_dec e o) as [Hle|Hgt]; [exact Hle|]. exfalso.
    apply Z.mod_divide in Ho; [|lia]. apply Z.mod_divide in Hm; [|lia].
    destruct Ho as [c1 Hc1]. destruct Hm as [c2 Hc2].
    assert (Hd : e - o = (c2 - c1) * alignment) by lia.
    assert (Hc : 1 <= c2 - c1) by nia. nia. }
  split; [lia|]. split; [exact Hm|]. split.
  { intros o Ho Hoa. apply (Hleast o headerSize); assumption. }
  intros a0 Ha0.
  rewrite (adjustment_closed_form address alignment Hal Hp) in Ha0.
  injection Ha0 as <-.
  pose proof (adjustment_facts address alignment Hal Hp) as Hf.
  cbv zeta in Hf. destruct Hf as [Hr [Hm0 [Hmin0 _]]].
  set (a0 := (alignment - address mod alignment) mod alignment) in *.
  assert (Hle : a0 <= e) by (apply Hmin0; [lia|exact Hm]).
  split; [exact Hle|]. split.
  - apply Z.mod_divide in Hm; [|lia]. apply Z.mod_divide in Hm0; [|lia].
    destruct Hm as [c1 Hc1]. destruct Hm0 as [c2 Hc2].
    replace (e - a0) with ((c1 - c2) * alignment) by lia.
    apply Z.mod_mul. lia.
  - intros Hcov. apply Z.le_antisymm; [|exact Hle].
    apply (Hleast a0 headerSize); [exact Hcov|lia|exact Hm0].
Qed.

Lemma header_adjustment_least_witness :
  9 <= 13 < 9 + 8 /\
  (4099 + 13) mod 8 = 0 /\
  (forall o, 9 <= o -> (4099 + o) mod 8 = 0 -> 13 <= o) /\
  (forall a0, Allocator.CalculateAlignForwardAdjustment 4099 8 = Ok a0 ->
     a0 <= 13 /\ (13 - a0) mod 8 = 0 /\ (9 <= a0 -> 13 = a0)).
Proof.
  apply (header_adjustment_least 4099 8 9 13).
  - unfold in_u64. rewrite u64_modulus_eq. lia.
  - unfold in_u64. rewrite u64_modulus_eq. lia.
  - unfold in_u64. rewrite u64_modulus_eq. lia.
  - reflexivity.
  - rewrite u64_modulus_eq. lia.
  - reflexivity.
Defined.

(** ** More on the pool: memory, capacity, round trips *)

Lemma Allocate_keeps_memory T (s : PoolAllocator.state) sz al :
  snd (snd (PoolAllocator.Allocate T s sz al)) = snd s.
Proof.
  destruct s as [a hp]. unfold PoolAllocator.Allocate.
  destruct (neko_assert _ SizeMismatch); [|reflexivity].
  destruct (if PoolAllocator.freeBlocks_ a =? nullptr
            then neko_assert false OutOfMemory else Ok tt); reflexivity.
Qed.

Section RepresentedTraces.

Variables (T : ElementShape) (mem size b : Z) (n : nat).
Hypothesis ptr_fits : sizeof_ptr <= sizeofT T.
Hypothesis b_pos : 0 < b.
Hypothesis b_end : b + Z.of_nat n * sizeofT T <= u64_modulus.

Abbreviation repr := (pool_repr T mem size b n).
Abbreviation sz := (sizeofT T).

Lemma slot_size_pos : 0 < sz.
Proof using ptr_fits.
  generalize ptr_fits. unfold sizeof_ptr. clear. lia.
Qed.

Lemma repr_live_slot s fl live p :
  repr s fl live -> In p live -> In p (slots T b n).
Proof using Type.
  intros Hr Hp. apply (repr_in_slots T mem size b n s fl live p Hr).
  apply in_or_app. right. exact Hp.
Qed.

Lemma repr_live_NoDup s fl live : repr s fl live -> NoDup live.
Proof using ptr_fits.
  intros Hr. pose proof (repr_NoDup T mem size b n ptr_fits s fl live Hr) as H.
  apply NoDup_app_remove_l in H. exact H.
Qed.

(** What one step of a trace does to the pool. *)
Lemma run_step o ops s live fl s' live' :
  repr s fl live ->
  PoolAllocator.run T (o :: ops) s live = Some (s', live') ->
  exists s1 live1 fl1,
    repr s1 fl1 live1 /\
    PoolAllocator.run T ops s1 live1 = Some (s', live') /\
    ((exists p, o = PoolAllocator.OpAllocate /\ fl = p :: fl1 /\
                live1 = p :: live /\ snd s1 = snd s) \/
     (exists p, o = PoolAllocator.OpDeallocate p /\ In p live /\
                fl1 = p :: fl /\ live1 = remove Z.eq_dec p live /\
                snd s1 = store_ptr (snd s) p (PoolAllocator.freeBlocks_ (fst s)))).
Proof using ptr_fits b_pos b_end.
  intros Hr Hrun. destruct o as [|p]; cbn [PoolAllocator.run] in Hrun.
  - destruct fl as [|q fl].
    + rewrite (Allocate_empty T mem size b n s live Hr) in Hrun. discriminate.
    + destruct (Allocate_head T mem size b n ptr_fits b_pos b_end s q fl live Hr)
        as [s1 [Ha [Hr1 _]]].
      pose proof (Allocate_keeps_memory T s sz (alignofT T)) as Hm.
      rewrite Ha in Hrun, Hm. cbn [snd] in Hm.
      exists s1, (q :: live), fl. split; [exact Hr1|]. split; [exact Hrun|].
      left. exists q. repeat split; try reflexivity. exact Hm.
  - destruct (existsb (Z.eqb p) live) eqn:Ex; [|discriminate].
    apply existsb_exists in Ex. destruct Ex as [x [Hx Hpx]].
    apply Z.eqb_eq in Hpx. subst x.
    destruct (Deallocate_live T mem size b n ptr_fits b_pos b_end s p fl live
                Hr Hx) as [Hr1 _].
    exists (PoolAllocator.Deallocate T s p), (remove Z.eq_dec p live), (p :: fl).
    split; [exact Hr1|]. split; [exact Hrun|].
    right. exists p. repeat split; try reflexivity; try exact Hx.
    destruct s as [a hp]. reflexivity.
Qed.

(** A trace stores only at slot addresses and leaves every byte outside the
    slots as it was. *)
Lemma run_frame ops : forall s live fl s' live',
  repr s fl live ->
  PoolAllocator.run T ops s live = Some (s', live') ->
  (forall x, x < b \/ b + Z.of_nat n * sz <= x ->
             bytes (snd s') x = bytes (snd s) x) /\
  exists new,
    stores (snd s') = new ++ stores (snd s) /\
    Forall (fun a => In a (slots T b n)) new.
Proof using ptr_fits b_pos b_end.
  induction ops as [|o ops IH]; intros s live fl s' live' Hr Hrun.
  - cbn [PoolAllocator.run] in Hrun. injection Hrun as <- <-.
    split; [intros; reflexivity|]. exists []. split; [reflexivity|constructor].
  - destruct (run_step o ops s live fl s' live' Hr Hrun)
      as [s1 [live1 [fl1 [Hr1 [Hrun1 Hcase]]]]].
    destruct (IH s1 live1 fl1 s' live' Hr1 Hrun1) as [Hfr [new [Hst Hall]]].
    destruct Hcase as [[p [_ [_ [_ Hm]]]]|[p [_ [Hp [_ [_ Hm]]]]]].
    + rewrite Hm in Hfr, Hst. split; [exact Hfr|].
      exists new. split; assumption.
    + pose proof (repr_live_slot s fl live p Hr Hp) as Hps.
      pose proof (slots_bounds T b n p slot_size_pos Hps) as [Hb1 Hb2].
      rewrite Hm in Hfr, Hst. split.
      * intros x Hx. rewrite Hfr by exact Hx.
        apply bytes_store_ptr_outside. unfold sizeof_ptr in *. lia.
      * exists (new ++ [p]). cbn [store_ptr stores] in Hst.
        rewrite Hst, <- app_assoc. split; [reflexivity|].
        apply Forall_app. split; [exact Hall|].
        constructor; [exact Hps|constructor].
Qed.

(** A live block that the trace does not release stays live, and none of
    its bytes changes. *)
Lemma run_keeps_block q ops : forall s live fl s' live',
  repr s fl live -> In q live ->
  ~ In (PoolAllocator.OpDeallocate q) ops ->
  PoolAllocator.run T ops s live = Some (s', live') ->
  In q live' /\
  forall x, q <= x < q + sz -> bytes (snd s') x = bytes (snd s) x.
Proof using ptr_fits b_pos b_end.
  induction ops as [|o ops IH]; intros s live fl s' live' Hr Hq Hno Hrun.
  - cbn [PoolAllocator.run] in Hrun. injection Hrun as <- <-.
    split; [exact Hq|intros; reflexivity].
  - destruct (run_step o ops s live fl s' live' Hr Hrun)
      as [s1 [live1 [fl1 [Hr1 [Hrun1 Hcase]]]]].
    assert (Hno1 : ~ In (PoolAllocator.OpDeallocate q) ops)
      by (intros H; apply Hno; right; exact H).
    destruct Hcase as [[p [_ [_ [Hl Hm]]]]|[p [Ho [Hp [_ [Hl Hm]]]]]].
    + assert (Hq1 : In q live1) by (rewrite Hl; right; exact Hq).
      destruct (IH s1 live1 fl1 s' live' Hr1 Hq1 Hno1 Hrun1) as [Hin Hb].
      split; [exact Hin|]. intros x Hx. rewrite Hb by exact Hx.
      rewrite Hm. reflexivity.
    + assert (Hne : q <> p).
      { intros E. apply Hno. left. rewrite Ho, E. reflexivity. }
      assert (Hq1 : In q live1) by (rewrite Hl; apply in_in_remove; assumption).
      destruct (IH s1 live1 fl1 s' live' Hr1 Hq1 Hno1 Hrun1) as [Hin Hb].
      split; [exact Hin|]. intros x Hx. rewrite Hb by exact Hx.
      rewrite Hm. apply bytes_store_ptr_outside.
      pose proof (repr_live_slot s fl live p Hr Hp) as Hps.
      pose proof (repr_live_slot s fl live q Hr Hq) as Hqs.
      destruct (slots_apart T b n q p slot_size_pos Hqs Hps) as [E|E];
        [contradiction|].
      unfold sizeof_ptr in *. lia.
Qed.

(** Release then allocate, and allocate then release, give back the same
    allocator object. *)
Lemma Deallocate_Allocate_object s fl live p :
  repr s fl live -> In p live ->
  exists s',
    PoolAllocator.Allocate T (PoolAllocator.Deallocate T s p) sz (alignofT T)
    = (Ok p, s') /\
    fst s' = fst s /\
    snd s' = store_ptr (snd s) p (PoolAllocator.freeBlocks_ (fst s)).
Proof using ptr_fits b_pos b_end.
  intros Hr Hp.
  pose proof (repr_lengths T mem size b n s fl live Hr) as Hlen.
  pose proof (repr_live_NoDup s fl live Hr) as Hnd.
  pose proof (repr_live_slot s fl live p Hr Hp) as Hps.
  pose proof (slot_u64 T b n ptr_fits b_pos b_end p Hps) as [Hp0 Hpu].
  assert (Hl1 : (1 <= length live)%nat).
  { destruct live; [destruct Hp|cbn; lia]. }
  pose proof slot_size_pos as Hsz.
  destruct s as [[[st si u nu] fb] hp].
  destruct Hr as [Hs [Hperm [Hu [Hn _]]]].
  cbn [fst snd PoolAllocator.base PoolAllocator.freeBlocks_
       usedMemory_ numAllocations_] in *.
  assert (Hfb : in_u64 fb).
  { apply (lseg_head_range hp fl); [exact Hs|]. intros x Hx.
    apply (slot_u64 T b n ptr_fits b_pos b_end).
    apply (Permutation_in _ Hperm). apply in_or_app. left. exact Hx. }
  unfold PoolAllocator.Deallocate, PoolAllocator.Allocate.
  cbn [PoolAllocator.base PoolAllocator.freeBlocks_ usedMemory_
       numAllocations_ start_ size_].
  rewrite !Z.eqb_refl. cbn [andb neko_assert].
  assert (Hpn : (p =? nullptr) = false)
    by (apply Z.eqb_neq; unfold nullptr; lia).
  rewrite Hpn. eexists. split; [reflexivity|]. cbn [fst snd].
  split; [|reflexivity].
  rewrite load_store_same by exact Hfb.
  rewrite (wrap64_small (u - sz)) by (unfold in_u64, sizeof_ptr in *; nia).
  rewrite (wrap64_small (nu - 1)) by (unfold in_u64, sizeof_ptr in *; nia).
  rewrite (wrap64_small (u - sz + sz)) by (unfold in_u64, sizeof_ptr in *; nia).
  rewrite (wrap64_small (nu - 1 + 1)) by (unfold in_u64, sizeof_ptr in *; nia).
  repeat f_equal; lia.
Qed.

Lemma Allocate_Deallocate_object s fl live p s1 :
  repr s fl live ->
  PoolAllocator.Allocate T s sz (alignofT T) = (Ok p, s1) ->
  fst (PoolAllocator.Deallocate T s1 p) = fst s /\
  repr (PoolAllocator.Deallocate T s1 p) fl live /\
  forall x, x < p \/ p + sizeof_ptr <= x ->
            bytes (snd (PoolAllocator.Deallocate T s1 p)) x = bytes (snd s) x.
Proof using ptr_fits b_pos b_end.
  intros Hr Ha. destruct fl as [|q fl].
  { rewrite (Allocate_empty T mem size b n s live Hr) in Ha. discriminate. }
  destruct (Allocate_head T mem size b n ptr_fits b_pos b_end s q fl live Hr)
    as [s1' [Ha' [Hr1 [Hu1 Hn1]]]].
  rewrite Ha' in Ha. injection Ha as <- <-.
  pose proof (Allocate_keeps_memory T s sz (alignofT T)) as Hm.
  rewrite Ha' in Hm. cbn [snd] in Hm.
  assert (Hq : In q (q :: live)) by (left; reflexivity).
  destruct (Deallocate_live T mem size b n ptr_fits b_pos b_end s1' q fl
              (q :: live) Hr1 Hq) as [Hr2 [Hu2 [Hn2 _]]].
  assert (Hql : ~ In q live).
  { pose proof (repr_NoDup T mem size b n ptr_fits s (q :: fl) live Hr) as Hnd.
    intros Hin. apply (NoDup_app_disjoint (q :: fl) live q Hnd);
      [left; reflexivity|exact Hin]. }
  assert (Hrem : remove Z.eq_dec q (q :: live) = live).
  { cbn [remove]. destruct (Z.eq_dec q q) as [_|N]; [|contradiction].
    apply notin_remove. exact Hql. }
  rewrite Hrem in Hr2.
  split; [|split; [exact Hr2|]].
  - destruct Hr as [Hs [_ [_ [_ [Hst Hsi]]]]].
    destruct Hr2 as [Hs2 [_ [_ [_ [Hst2 Hsi2]]]]].
    cbn [lseg] in Hs, Hs2. destruct Hs as [Hfb _]. destruct Hs2 as [Hfb2 _].
    destruct s as [[[st si u nu] fb] hp].
    destruct (PoolAllocator.Deallocate T s1' q) as [[[st2 si2 u2 nu2] fb2] hp2].
    cbn [fst snd PoolAllocator.base PoolAllocator.freeBlocks_
         usedMemory_ numAllocations_ start_ size_] in *.
    repeat f_equal; lia.
  - intros x Hx. destruct s1' as [a1 h1]. cbn [snd] in Hm. subst h1.
    unfold PoolAllocator.Deallocate. cbn [snd].
    apply bytes_store_ptr_outside. exact Hx.
Qed.

End RepresentedTraces.

(** Every state a client trace reaches from a constructed pool is a
    represented one. *)
Lemma reached T mem size adj h :
  wf_shape T -> valid_arena mem size ->
  Allocator.CalculateAlignForwardAdjustment mem (alignofT T) = Ok adj ->
  1 <= (size - adj) / sizeofT T ->
  exists s0,
    PoolAllocator.ctor T size mem h = Ok s0 /\
    pool_repr T mem size (mem + adj) (Z.to_nat ((size - adj) / sizeofT T)) s0
      (slots T (mem + adj) (Z.to_nat ((size - adj) / sizeofT T))) [] /\
    (forall x, x < mem \/ mem + size <= x -> bytes (snd s0) x = bytes h x) /\
    (exists new, stores (snd s0) = new ++ stores h /\
                 Forall (store_in_arena mem size) new) /\
    forall ops s live,
      PoolAllocator.run T ops s0 [] = Some (s, live) ->
      exists fl,
        pool_repr T mem size (mem + adj)
          (Z.to_nat ((size - adj) / sizeofT T)) s fl live.
Proof.
  intros Hwf Har Hadj Hfit.
  destruct (ctor_spec T mem size adj Hwf Har Hadj Hfit h)
    as [s0 [Hc [_ [Hrepr [Hst [Hfr _]]]]]].
  destruct (first_slot_range T mem size adj Hwf Har Hadj Hfit) as [Hb Hub].
  pose proof (slots_fit T size adj Hwf Hfit) as [_ [Hf _]].
  pose proof (adj_range T mem adj Hwf Hadj) as Hadjr.
  pose proof Hwf as [Hs _].
  exists s0. split; [exact Hc|]. split; [exact Hrepr|]. split; [|split].
  - intros x Hx. apply Hfr. lia.
  - eexists. split; [exact Hst|]. apply Forall_forall. intros x Hx.
    apply in_rev in Hx.
    pose proof (slots_bounds T _ _ x ltac:(unfold sizeof_ptr in Hs; lia) Hx)
      as [H1 H2].
    unfold store_in_arena. lia.
  - intros ops s live Hrun.
    destruct (run_repr T mem size (mem + adj) _ Hs Hb Hub ops s0 [] _ s live
                Hrepr Hrun) as [He _].
    exact He.
Qed.

(** X5.  Every block a pool has handed out and not taken back is non-null,
    lies inside the arena with room for a whole [T], and is aligned for [T]
    (the size of [T] being a multiple of its alignment); the live blocks are
    pairwise distinct and do not overlap. *)
Theorem PoolAllocator_live_blocks T mem size adj h :
  wf_shape T -> size_multiple_of_alignment T -> valid_arena mem size ->
  Allocator.CalculateAlignForwardAdjustment mem (alignofT T) = Ok adj ->
  1 <= (size - adj) / sizeofT T ->
  exists s0,
    PoolAllocator.ctor T size mem h = Ok s0 /\
    forall ops s live,
      PoolAllocator.run T ops s0 [] = Some (s, live) ->
      NoDup live /\
      (forall p, In p live ->
         p <> nullptr /\ mem <= p /\ p + sizeofT T <= mem + size /\
         p mod alignofT T = 0) /\
      (forall p q, In p live -> In q live -> p <> q ->
         p + sizeofT T <= q \/ q + sizeofT T <= p).
Proof.
  intros Hwf Hmul Har Hadj Hfit.
  destruct (reached T mem size adj h Hwf Har Hadj Hfit)
    as [s0 [Hc [_ [_ [_ Hreach]]]]].
  destruct (first_slot_range T mem size adj Hwf Har Hadj Hfit) as [Hb Hub].
  pose proof (slots_fit T size adj Hwf Hfit) as [_ [Hf _]].
  pose proof (adj_range T mem adj Hwf Hadj) as Hadjr.
  pose proof Hwf as [Hs [_ [Hal Hp]]].
  assert (Hsz : 0 < sizeofT T) by (unfold sizeof_ptr in Hs; lia).
  pose proof (alignment_pos (alignofT T) Hal Hp) as Hapos.
  assert (Hbase : (mem + adj) mod alignofT T = 0).
  { rewrite (adjustment_closed_form mem (alignofT T) Hal Hp) in Hadj.
    injection Hadj as <-.
    apply (adjustment_facts mem (alignofT T) Hal Hp). }
  exists s0. split; [exact Hc|]. intros ops s live Hrun.
  destruct (Hreach ops s live Hrun) as [fl Hr].
  set (n := Z.to_nat ((size - adj) / sizeofT T)) in *.
  split; [apply (repr_live_NoDup T mem size (mem + adj) n Hs s fl live Hr)|].
  split.
  - intros p Hpl.
    pose proof (repr_live_slot T mem size (mem + adj) n s fl live p Hr Hpl) as Hps.
    pose proof (slots_bounds T _ _ p Hsz Hps) as [H1 H2].
    split; [unfold nullptr; lia|]. split; [lia|]. split; [lia|].
    apply in_slots in Hps. destruct Hps as [i [_ ->]].
    unfold size_multiple_of_alignment in Hmul.
    apply Z.mod_divide in Hmul; [|lia]. destruct Hmul as [c Hc'].
    rewrite Hc'. replace (mem + adj + Z.of_nat i * (c * alignofT T))
      with (mem + adj + (Z.of_nat i * c) * alignofT T) by lia.
    rewrite Z.mod_add by lia. exact Hbase.
  - intros p q Hpl Hql Hne.
    pose proof (repr_live_slot T mem size (mem + adj) n s fl live p Hr Hpl) as Hps.
    pose proof (repr_live_slot T mem size (mem + adj) n s fl live q Hr Hql) as Hqs.
    destruct (slots_apart T _ _ p q Hsz Hps Hqs) as [E|E]; [contradiction|exact E].
Qed.

(** X6.  In every state a pool reaches, the blocks on the free list and the
    live blocks together are the [N] slots; [numAllocations] is between 0 and
    [N] and [usedMemory] is at most the arena size; [Allocate] fails with
    [OutOfMemory] exactly when [numAllocations = N] and succeeds exactly when
    it is smaller; [GetStart] and [GetSize] are those given to the
    constructor. *)
Theorem PoolAllocator_capacity T mem size adj h :
  wf_shape T -> valid_arena mem size ->
  Allocator.CalculateAlignForwardAdjustment mem (alignofT T) = Ok adj ->
  1 <= (size - adj) / sizeofT T ->
  let N := Z.to_nat ((size - adj) / sizeofT T) in
  exists s0,
    PoolAllocator.ctor T size mem h = Ok s0 /\
    forall ops s live,
      PoolAllocator.run T ops s0 [] = Some (s, live) ->
      let free := PoolAllocator.free_list (S N) (snd s)
                    (PoolAllocator.freeBlocks_ (fst s)) in
      let num := numAllocations_ (PoolAllocator.base (fst s)) in
      Permutation (free ++ live) (slots T (mem + adj) N) /\
      (length free + length live = N)%nat /\
      0 <= num <= Z.of_nat N /\
      0 <= GetUsedMemory (PoolAllocator.base (fst s)) <= size /\
      (PoolAllocator.Allocate T s (sizeofT T) (alignofT T) = (Fail OutOfMemory, s)
       <-> num = Z.of_nat N) /\
      ((exists p s1, PoolAllocator.Allocate T s (sizeofT T) (alignofT T) = (Ok p, s1))
       <-> num < Z.of_nat N) /\
      GetStart (PoolAllocator.base (fst s)) = mem /\
      GetSize (PoolAllocator.base (fst s)) = size.
Proof.
  intros Hwf Har Hadj Hfit N.
  destruct (reached T mem size adj h Hwf Har Hadj Hfit)
    as [s0 [Hc [_ [_ [_ Hreach]]]]].
  destruct (first_slot_range T mem size adj Hwf Har Hadj Hfit) as [Hb Hub].
  pose proof (slots_fit T size adj Hwf Hfit) as [_ [Hf _]].
  pose proof (adj_range T mem adj Hwf Hadj) as Hadjr.
  pose proof Hwf as [Hs _].
  assert (Hsz : 0 < sizeofT T) by (unfold sizeof_ptr in Hs; lia).
  fold N in Hub, Hf, Hreach.
  exists s0. split; [exact Hc|]. intros ops s live Hrun free num.
  destruct (Hreach ops s live Hrun) as [fl Hr].
  pose proof (repr_lengths T mem size (mem + adj) N s fl live Hr) as Hlen.
  pose proof Hr as [Hseg [Hperm [Hu [Hn [Hst Hsi]]]]].
  assert (Hfree : free = fl).
  { subst free. apply lseg_free_list; [exact Hseg|lia]. }
  rewrite Hfree. subst num. unfold GetUsedMemory, GetStart, GetSize.
  rewrite Hn, Hu.
  split; [exact Hperm|]. split; [exact Hlen|]. split; [lia|]. split; [nia|].
  split; [|split; [|split; assumption]].
  - destruct fl as [|q fl].
    + rewrite (Allocate_empty T mem size (mem + adj) N s live Hr).
      cbn [length] in Hlen. split; intros _; [lia|reflexivity].
    + destruct (Allocate_head T mem size (mem + adj) N Hs Hb Hub s q fl live Hr)
        as [s1 [Ha _]].
      rewrite Ha. cbn [length] in Hlen.
      split; intros H; [discriminate H|lia].
  - destruct fl as [|q fl].
    + rewrite (Allocate_empty T mem size (mem + adj) N s live Hr).
      cbn [length] in Hlen.
      split; intros H; [destruct H as [p [s1 H]]; discriminate H|lia].
    + destruct (Allocate_head T mem size (mem + adj) N Hs Hb Hub s q fl live Hr)
        as [s1 [Ha _]].
      rewrite Ha. cbn [length] in Hlen.
      split; intros H; [lia|exists q, s1; reflexivity].
Qed.

(** X7.  Construction and any client trace store pointers only inside the
    arena and leave every byte outside the arena as it was before the pool
    was built; [Allocate] does not write to memory at all. *)
Theorem PoolAllocator_memory_frame T mem size adj h :
  wf_shape T -> valid_arena mem size ->
  Allocator.CalculateAlignForwardAdjustment mem (alignofT T) = Ok adj ->
  1 <= (size - adj) / sizeofT T ->
  exists s0,
    PoolAllocator.ctor T size mem h = Ok s0 /\
    forall ops s live,
      PoolAllocator.run T ops s0 [] = Some (s, live) ->
      (forall x, x < mem \/ mem + size <= x -> bytes (snd s) x = bytes h x) /\
      (exists new, stores (snd s) = new ++ stores h /\
                   Forall (store_in_arena mem size) new) /\
      (forall sz al, snd (snd (PoolAllocator.Allocate T s sz al)) = snd s).
Proof.
  intros Hwf Har Hadj Hfit.
  destruct (reached T mem size adj h Hwf Har Hadj Hfit)
    as [s0 [Hc [Hr0 [Hfr0 [[new0 [Hst0 Hall0]] _]]]]].
  destruct (first_slot_range T mem size adj Hwf Har Hadj Hfit) as [Hb Hub].
  pose proof (slots_fit T size adj Hwf Hfit) as [_ [Hf _]].
  pose proof (adj_range T mem adj Hwf Hadj) as Hadjr.
  pose proof Hwf as [Hs _].
  assert (Hsz : 0 < sizeofT T) by (unfold sizeof_ptr in Hs; lia).
  exists s0. split; [exact Hc|]. intros ops s live Hrun.
  destruct (run_frame T mem size (mem + adj) _ Hs Hb Hub ops s0 [] _ s live
              Hr0 Hrun) as [Hfr [new [Hst Hall]]].
  split; [|split].
  - intros x Hx. rewrite Hfr by lia. apply Hfr0. exact Hx.
  - exists (new ++ new0). rewrite Hst, Hst0, app_assoc.
    split; [reflexivity|]. apply Forall_app. split; [|exact Hall0].
    apply Forall_forall. intros x Hx.
    rewrite Forall_forall in Hall. specialize (Hall x Hx).
    pose proof (slots_bounds T _ _ x Hsz Hall) as [H1 H2].
    unfold store_in_arena. unfold sizeof_ptr in *. lia.
  - intros sz al. apply Allocate_keeps_memory.
Qed.

(** X8.  What a client keeps in a live block is safe from the pool: along any
    further trace that does not release that block, the block stays live and
    none of its [sizeof(T)] bytes changes. *)
Theorem PoolAllocator_preserves_live_data T mem size adj h :
  wf_shape T -> valid_arena mem size ->
  Allocator.CalculateAlignForwardAdjustment mem (alignofT T) = Ok adj ->
  1 <= (size - adj) / sizeofT T ->
  exists s0,
    PoolAllocator.ctor T size mem h = Ok s0 /\
    forall ops s live,
      PoolAllocator.run T ops s0 [] = Some (s, live) ->
      forall q ops' s' live',
        In q live ->
        ~ In (PoolAllocator.OpDeallocate q) ops' ->
        PoolAllocator.run T ops' s live = Some (s', live') ->
        In q live' /\
        forall x, q <= x < q + sizeofT T -> bytes (snd s') x = bytes (snd s) x.
Proof.
  intros Hwf Har Hadj Hfit.
  destruct (reached T mem size adj h Hwf Har Hadj Hfit)
    as [s0 [Hc [_ [_ [_ Hreach]]]]].
  destruct (first_slot_range T mem size adj Hwf Har Hadj Hfit) as [Hb Hub].
  pose proof Hwf as [Hs _].
  exists s0. split; [exact Hc|]. intros ops s live Hrun q ops' s' live' Hq Hno Hrun'.
  destruct (Hreach ops s live Hrun) as [fl Hr].
  exact (run_keeps_block T mem size (mem + adj) _ Hs Hb Hub q ops' s live fl
           s' live' Hr Hq Hno Hrun').
Qed.

(** ** Misuse and teardown of the pool *)

Lemma Allocate_self_loop T p n : forall s : PoolAllocator.state,
  p <> nullptr ->
  PoolAllocator.freeBlocks_ (fst s) = p ->
  load_ptr (snd s) p = p ->
  exists s',
    PoolAllocator.Allocate_n T n s = (Ok (repeat p n), s') /\
    PoolAllocator.freeBlocks_ (fst s') = p /\ snd s' = snd s.
Proof.
  intros s Hp. revert s. induction n as [|n IH]; intros s Hfb Hld.
  - exists s. split; [reflexivity|]. split; [exact Hfb|reflexivity].
  - destruct s as [a hp]. cbn [fst snd] in Hfb, Hld.
    cbn [PoolAllocator.Allocate_n]. unfold PoolAllocator.Allocate.
    rewrite !Z.eqb_refl. cbn [andb neko_assert].
    apply Z.eqb_neq in Hp. rewrite Hfb, Hp, Hld.
    match goal with
    | |- context [PoolAllocator.Allocate_n T n ?s1] =>
        destruct (IH s1 eq_refl Hld) as [s' [Hn [Hfb' Hm]]]
    end.
    rewrite Hn. exists s'. repeat split; assumption.
Qed.

(** X9.  [Deallocate] does not notice a block released twice.  In any state
    a pool reaches, releasing a live block twice links the block to itself
    (both stores lie inside the arena), and from then on every [Allocate]
    succeeds and returns that same block, any number of times, more often
    than the pool has slots, without touching memory. *)
Theorem PoolAllocator_double_release T mem size adj h :
  wf_shape T -> valid_arena mem size ->
  Allocator.CalculateAlignForwardAdjustment mem (alignofT T) = Ok adj ->
  1 <= (size - adj) / sizeofT T ->
  exists s0,
    PoolAllocator.ctor T size mem h = Ok s0 /\
    forall ops s live,
      PoolAllocator.run T ops s0 [] = Some (s, live) ->
      forall p n,
        In p live ->
        store_in_arena mem size p /\
        exists s',
          PoolAllocator.Allocate_n T n
            (PoolAllocator.Deallocate T (PoolAllocator.Deallocate T s p) p)
          = (Ok (repeat p n), s') /\
          snd s'
          = snd (PoolAllocator.Deallocate T (PoolAllocator.Deallocate T s p) p).
Proof.
  intros Hwf Har Hadj Hfit.
  destruct (reached T mem size adj h Hwf Har Hadj Hfit)
    as [s0 [Hc [_ [_ [_ Hreach]]]]].
  destruct (first_slot_range T mem size adj Hwf Har Hadj Hfit) as [Hb Hub].
  pose proof (slots_fit T size adj Hwf Hfit) as [_ [Hf _]].
  pose proof (adj_range T mem adj Hwf Hadj) as Hadjr.
  pose proof Hwf as [Hs _].
  assert (Hsz : 0 < sizeofT T) by (unfold sizeof_ptr in Hs; lia).
  exists s0. split; [exact Hc|]. intros ops s live Hrun p n Hp.
  destruct (Hreach ops s live Hrun) as [fl Hr].
  pose proof (repr_live_slot T mem size (mem + adj) _ s fl live p Hr Hp) as Hps.
  pose proof (slot_u64 T (mem + adj) _ Hs Hb Hub p Hps) as [Hp0 Hpu].
  pose proof (slots_bounds T _ _ p Hsz Hps) as [H1 H2].
  split; [unfold store_in_arena; unfold sizeof_ptr in *; lia|].
  assert (Hpn : p <> nullptr) by (unfold nullptr; lia).
  destruct (Allocate_self_loop T p n
              (PoolAllocator.Deallocate T (PoolAllocator.Deallocate T s p) p) Hpn)
    as [s' [Hn [_ Hm]]].
  - destruct s as [a hp]. reflexivity.
  - destruct s as [a hp]. unfold PoolAllocator.Deallocate.
    cbn [fst snd PoolAllocator.freeBlocks_].
    apply load_store_same. exact Hpu.
  - exists s'. split; assumption.
Qed.

Lemma PoolAllocator_double_release_witness :
  exists s0 s s',
    PoolAllocator.ctor example_shape 64 4096 blank_heap = Ok s0 /\
    PoolAllocator.run example_shape [PoolAllocator.OpAllocate] s0 []
    = Some (s, [4096]) /\
    PoolAllocator.Allocate_n example_shape 6
      (PoolAllocator.Deallocate example_shape
         (PoolAllocator.Deallocate example_shape s 4096) 4096)
    = (Ok (repeat 4096 6), s').
Proof.
  assert (Hwf : wf_shape example_shape)
    by (unfold wf_shape, in_u64, sizeof_ptr; rewrite u64_modulus_eq;
        cbn [sizeofT alignofT example_shape]; repeat split; try lia; reflexivity).
  assert (Har : valid_arena 4096 64)
    by (unfold valid_arena; rewrite u64_modulus_eq; lia).
  assert (Hadj : Allocator.CalculateAlignForwardAdjustment 4096
                   (alignofT example_shape) = Ok 0) by reflexivity.
  assert (Hfit : 1 <= (64 - 0) / sizeofT example_shape) by (cbn; lia).
  destruct (PoolAllocator_double_release example_shape 4096 64 0 blank_heap
              Hwf Har Hadj Hfit) as [s0 [Hc Hdouble]].
  destruct (PoolAllocator.run example_shape [PoolAllocator.OpAllocate] s0 [])
    as [[s live]|] eqn:Er.
  - assert (Hlive : live = [4096]).
    { pose proof Hc as Hc'. vm_compute in Hc'. injection Hc' as Hs0.
      rewrite <- Hs0 in Er. vm_compute in Er. injection Er as _ Hl.
      symmetry. exact Hl. }
    subst live.
    destruct (Hdouble _ s _ Er 4096 6%nat (or_introl eq_refl)) as [_ [s' [Hn _]]].
    exists s0, s, s'. exact (conj Hc (conj Er Hn)).
  - exfalso. pose proof Hc as Hc'. vm_compute in Hc'. injection Hc' as Hs0.
    rewrite <- Hs0 in Er. vm_compute in Er. discriminate Er.
Defined.

(** X10.  A pool can be destroyed exactly when no block is live: after a
    client trace the destructor succeeds if the trace released everything it
    allocated, leaving [start], [size] and the free-list head cleared, and
    fails with [LeakAtTeardown] if a block is still live. *)
Theorem PoolAllocator_teardown T mem size adj h :
  wf_shape T -> valid_arena mem size ->
  Allocator.CalculateAlignForwardAdjustment mem (alignofT T) = Ok adj ->
  1 <= (size - adj) / sizeofT T ->
  exists s0,
    PoolAllocator.ctor T size mem h = Ok s0 /\
    forall ops s live,
      PoolAllocator.run T ops s0 [] = Some (s, live) ->
      (live = [] <->
       PoolAllocator.count_allocs ops = PoolAllocator.count_deallocs ops) /\
      (live = [] ->
       exists a,
         PoolAllocator.dtor (fst s) = Ok a /\
         GetStart (PoolAllocator.base a) = nullptr /\
         GetSize (PoolAllocator.base a) = 0 /\
         PoolAllocator.freeBlocks_ a = nullptr) /\
      (live <> [] -> PoolAllocator.dtor (fst s) = Fail LeakAtTeardown).
Proof.
  intros Hwf Har Hadj Hfit.
  destruct (reached T mem size adj h Hwf Har Hadj Hfit)
    as [s0 [Hc [Hr0 _]]].
  destruct (first_slot_range T mem size adj Hwf Har Hadj Hfit) as [Hb Hub].
  pose proof Hwf as [Hs _].
  exists s0. split; [exact Hc|]. intros ops s live Hrun.
  destruct (run_repr T mem size (mem + adj) _ Hs Hb Hub ops s0 [] _ s live
              Hr0 Hrun) as [[fl Hr] Hcount].
  cbn [length] in Hcount.
  destruct Hr as [_ [_ [Hu [Hn _]]]].
  split; [|split].
  - split.
    + intros ->. cbn [length] in Hcount. lia.
    + intros E. destruct live; [reflexivity|]. cbn [length] in Hcount. lia.
  - intros ->. cbn [length] in Hu, Hn.
    unfold PoolAllocator.dtor, Allocator_dtor.
    cbn [PoolAllocator.base PoolAllocator.freeBlocks_].
    rewrite Hu, Hn. cbn [Z.mul Z.of_nat Z.eqb andb neko_assert bind].
    eexists. split; [reflexivity|]. repeat split; reflexivity.
  - intros Hne.
    destruct (Allocator_dtor_cases (PoolAllocator.base (fst s)))
      as [[Hn0 _]|[_ Hfail]].
    + exfalso. destruct live; [contradiction|]. cbn [length] in Hn. lia.
    + unfold PoolAllocator.dtor. cbn [PoolAllocator.base]. rewrite Hfail.
      reflexivity.
Qed.

(** X11.  Release and allocation undo each other on the allocator object.
    From any state a pool reaches: releasing a live block and allocating
    again returns that block and restores the counters and the free-list
    head; and releasing the block an allocation just returned restores the
    counters, the free-list head and the whole free list, changing no byte
    outside the first 8 bytes of that block. *)
Theorem PoolAllocator_round_trips T mem size adj h :
  wf_shape T -> valid_arena mem size ->
  Allocator.CalculateAlignForwardAdjustment mem (alignofT T) = Ok adj ->
  1 <= (size - adj) / sizeofT T ->
  let N := Z.to_nat ((size - adj) / sizeofT T) in
  exists s0,
    PoolAllocator.ctor T size mem h = Ok s0 /\
    forall ops s live,
      PoolAllocator.run T ops s0 [] = Some (s, live) ->
      (forall p, In p live ->
         exists s',
           PoolAllocator.Allocate T (PoolAllocator.Deallocate T s p)
             (sizeofT T) (alignofT T) = (Ok p, s') /\
           fst s' = fst s) /\
      (forall p s1,
         PoolAllocator.Allocate T s (sizeofT T) (alignofT T) = (Ok p, s1) ->
         let s2 := PoolAllocator.Deallocate T s1 p in
         fst s2 = fst s /\
         PoolAllocator.free_list (S N) (snd s2) (PoolAllocator.freeBlocks_ (fst s2))
         = PoolAllocator.free_list (S N) (snd s) (PoolAllocator.freeBlocks_ (fst s)) /\
         forall x, x < p \/ p + sizeof_ptr <= x ->
                   bytes (snd s2) x = bytes (snd s) x).
Proof.
  intros Hwf Har Hadj Hfit N.
  destruct (reached T mem size adj h Hwf Har Hadj Hfit)
    as [s0 [Hc [_ [_ [_ Hreach]]]]].
  destruct (first_slot_range T mem size adj Hwf Har Hadj Hfit) as [Hb Hub].
  pose proof Hwf as [Hs _].
  fold N in Hub, Hreach.
  exists s0. split; [exact Hc|]. intros ops s live Hrun.
  destruct (Hreach ops s live Hrun) as [fl Hr].
  pose proof (repr_lengths T mem size (mem + adj) N s fl live Hr) as Hlen.
  split.
  - intros p Hp.
    destruct (Deallocate_Allocate_object T mem size (mem + adj) N Hs Hb Hub
                s fl live p Hr Hp) as [s' [Ha [Hfst _]]].
    exists s'. split; assumption.
  - intros p s1 Ha s2.
    destruct (Allocate_Deallocate_object T mem size (mem + adj) N Hs Hb Hub
                s fl live p s1 Hr Ha) as [Hfst [Hr2 Hbytes]].
    fold s2 in Hfst, Hr2, Hbytes.
    split; [exact Hfst|]. split; [|exact Hbytes].
    destruct Hr as [Hseg _]. destruct Hr2 as [Hseg2 _].
    rewrite (lseg_free_list _ fl _ (S N) Hseg2) by lia.
    rewrite (lseg_free_list _ fl _ (S N) Hseg) by lia.
    reflexivity.
Qed.

(** ** The constructor of the free-list allocator *)

(** X12.  [FreeListAllocator(size, start)] is refused when [size] is at most
    the size of a free-block header (16 bytes), and nothing is written.
    Otherwise, over a valid arena, memory afterwards holds at [start] one
    free block [{size, null}] that spans the whole arena; both stores lie
    inside the arena, no byte outside [[start, start + 16)] changes, the
    counters are 0, and the allocator can be destroyed at once. *)
Theorem FreeListAllocator_ctor_one_block size start h :
  valid_arena start size ->
  (size <= sizeof_FreeBlock -> FreeListAllocator_ctor size start h = None) /\
  (sizeof_FreeBlock < size ->
   exists a h',
     FreeListAllocator_ctor size start h = Some (a, h') /\
     freelist_freeBlocks_ a = start /\
     load_size_t h' (FreeBlock_size (freelist_freeBlocks_ a)) = size /\
     load_ptr h' (FreeBlock_next (freelist_freeBlocks_ a)) = nullptr /\
     stores h' = [start + 8; start] ++ stores h /\
     Forall (store_in_arena start size) [start + 8; start] /\
     (forall x, x < start \/ start + sizeof_FreeBlock <= x ->
                bytes h' x = bytes h x) /\
     GetUsedMemory (freelist_base a) = 0 /\
     GetStart (freelist_base a) = start /\ GetSize (freelist_base a) = size /\
     exists a', FreeListAllocator_dtor a = Ok a').
Proof.
  intros [Hm [Hsi Hend]]. unfold FreeListAllocator_ctor. split.
  - intros Hle. apply Z.ltb_ge in Hle. rewrite Hle. reflexivity.
  - intros Hlt. pose proof Hlt as Hlt'. apply Z.ltb_lt in Hlt'. rewrite Hlt'.
    unfold sizeof_FreeBlock in *. cbv zeta.
    cbn [freelist_freeBlocks_ freelist_base].
    unfold FreeBlock_size, FreeBlock_next, store_size_t, load_size_t.
    eexists. eexists. split; [reflexivity|].
    cbn [freelist_freeBlocks_ freelist_base].
    split; [reflexivity|]. split.
    { rewrite load_store_other by (unfold sizeof_ptr; lia).
      apply load_store_same. unfold in_u64. lia. }
    split.
    { apply load_store_same. unfold in_u64, nullptr. rewrite u64_modulus_eq. lia. }
    split; [reflexivity|]. split.
    { repeat constructor; unfold sizeof_ptr; lia. }
    split.
    { intros x Hx. rewrite !bytes_store_ptr_outside by (unfold sizeof_ptr; lia).
      reflexivity. }
    split; [reflexivity|]. split; [reflexivity|]. split; [reflexivity|].
    eexists. reflexivity.
Qed.

Lemma FreeListAllocator_ctor_one_block_witness :
  (1024 <= sizeof_FreeBlock -> FreeListAllocator_ctor 1024 4096 blank_heap = None) /\
  (sizeof_FreeBlock < 1024 ->
   exists a h',
     FreeListAllocator_ctor 1024 4096 blank_heap = Some (a, h') /\
     freelist_freeBlocks_ a = 4096 /\
     load_size_t h' (FreeBlock_size (freelist_freeBlocks_ a)) = 1024 /\
     load_ptr h' (FreeBlock_next (freelist_freeBlocks_ a)) = nullptr /\
     stores h' = [4096 + 8; 4096] ++ stores blank_heap /\
     Forall (store_in_arena 4096 1024) [4096 + 8; 4096] /\
     (forall x, x < 4096 \/ 4096 + sizeof_FreeBlock <= x ->
                bytes h' x = bytes blank_heap x) /\
     GetUsedMemory (freelist_base a) = 0 /\
     GetStart (freelist_base a) = 4096 /\ GetSize (freelist_base a) = 1024 /\
     exists a', FreeListAllocator_dtor a = Ok a').
Proof.
  apply (FreeListAllocator_ctor_one_block 1024 4096 blank_heap).
  unfold valid_arena. rewrite u64_modulus_eq. lia.
Defined.

(** ** The example pool: instances of the statements above *)

Ltac example_pool T :=
  assert (Hwf : wf_shape T)
    by (unfold wf_shape, in_u64, sizeof_ptr; rewrite u64_modulus_eq;
        cbn [sizeofT alignofT example_shape]; repeat split; try lia; reflexivity);
  assert (Hmul : size_multiple_of_alignment T) by reflexivity;
  assert (Har : valid_arena 4096 64)
    by (unfold valid_arena; rewrite u64_modulus_eq; lia);
  assert (Hadj : Allocator.CalculateAlignForwardAdjustment 4096 (alignofT T) = Ok 0)
    by reflexivity;
  assert (Hfit : 1 <= (64 - 0) / sizeofT T) by (cbn; lia).

Lemma PoolAllocator_live_blocks_witness :
  exists s0,
    PoolAllocator.ctor example_shape 64 4096 blank_heap = Ok s0 /\
    forall ops s live,
      PoolAllocator.run example_shape ops s0 [] = Some (s, live) ->
      NoDup live /\
      (forall p, In p live ->
         p <> nullptr /\ 4096 <= p /\ p + 16 <= 4096 + 64 /\ p mod 8 = 0) /\
      (forall p q, In p live -> In q live -> p <> q ->
         p + 16 <= q \/ q + 16 <= p).
Proof.
  example_pool example_shape.
  exact (PoolAllocator_live_blocks example_shape 4096 64 0 blank_heap
           Hwf Hmul Har Hadj Hfit).
Defined.

Lemma PoolAllocator_capacity_witness :
  exists s0,
    PoolAllocator.ctor example_shape 64 4096 blank_heap = Ok s0 /\
    forall ops s live,
      PoolAllocator.run example_shape ops s0 [] = Some (s, live) ->
      Permutation
        (PoolAllocator.free_list 5 (snd s) (PoolAllocator.freeBlocks_ (fst s))
         ++ live) (slots example_shape 4096 4) /\
      (length (PoolAllocator.free_list 5 (snd s)
                 (PoolAllocator.freeBlocks_ (fst s))) + length live = 4)%nat /\
      0 <= numAllocations_ (PoolAllocator.base (fst s)) <= 4 /\
      0 <= GetUsedMemory (PoolAllocator.base (fst s)) <= 64 /\
      (PoolAllocator.Allocate example_shape s 16 8 = (Fail OutOfMemory, s)
       <-> numAllocations_ (PoolAllocator.base (fst s)) = 4) /\
      ((exists p s1, PoolAllocator.Allocate example_shape s 16 8 = (Ok p, s1))
       <-> numAllocations_ (PoolAllocator.base (fst s)) < 4) /\
      GetStart (PoolAllocator.base (fst s)) = 4096 /\
      GetSize (PoolAllocator.base (fst s)) = 64.
Proof.
  example_pool example_shape.
  exact (PoolAllocator_capacity example_shape 4096 64 0 blank_heap
           Hwf Har Hadj Hfit).
Defined.

Lemma PoolAllocator_memory_frame_witness :
  exists s0,
    PoolAllocator.ctor example_shape 64 4096 blank_heap = Ok s0 /\
    forall ops s live,
      PoolAllocator.run example_shape ops s0 [] = Some (s, live) ->
      (forall x, x < 4096 \/ 4096 + 64 <= x ->
                 bytes (snd s) x = bytes blank_heap x) /\
      (exists new, stores (snd s) = new ++ stores blank_heap /\
                   Forall (store_in_arena 4096 64) new) /\
      (forall sz al,
         snd (snd (PoolAllocator.Allocate example_shape s sz al)) = snd s).
Proof.
  example_pool example_shape.
  exact (PoolAllocator_memory_frame example_shape 4096 64 0 blank_heap
           Hwf Har Hadj Hfit).
Defined.

Lemma PoolAllocator_preserves_live_data_witness :
  exists s0,
    PoolAllocator.ctor example_shape 64 4096 blank_heap = Ok s0 /\
    forall ops s live,
      PoolAllocator.run example_shape ops s0 [] = Some (s, live) ->
      forall q ops' s' live',
        In q live ->
        ~ In (PoolAllocator.OpDeallocate q) ops' ->
        PoolAllocator.run example_shape ops' s live = Some (s', live') ->
        In q live' /\
        forall x, q <= x < q + 16 -> bytes (snd s') x = bytes (snd s) x.
Proof.
  example_pool example_shape.
  exact (PoolAllocator_preserves_live_data example_shape 4096 64 0 blank_heap
           Hwf Har Hadj Hfit).
Defined.

Lemma PoolAllocator_teardown_witness :
  exists s0,
    PoolAllocator.ctor example_shape 64 4096 blank_heap = Ok s0 /\
    forall ops s live,
      PoolAllocator.run example_shape ops s0 [] = Some (s, live) ->
      (live = [] <->
       PoolAllocator.count_allocs ops = PoolAllocator.count_deallocs ops) /\
      (live = [] ->
       exists a,
         PoolAllocator.dtor (fst s) = Ok a /\
         GetStart (PoolAllocator.base a) = nullptr /\
         GetSize (PoolAllocator.base a) = 0 /\
         PoolAllocator.freeBlocks_ a = nullptr) /\
      (live <> [] -> PoolAllocator.dtor (fst s) = Fail LeakAtTeardown).
Proof.
  example_pool example_shape.
  exact (PoolAllocator_teardown example_shape 4096 64 0 blank_heap
           Hwf Har Hadj Hfit).
Defined.

Lemma PoolAllocator_round_trips_witness :
  exists s0,
    PoolAllocator.ctor example_shape 64 4096 blank_heap = Ok s0 /\
    forall ops s live,
      PoolAllocator.run example_shape ops s0 [] = Some (s, live) ->
      (forall p, In p live ->
         exists s',
           PoolAllocator.Allocate example_shape
             (PoolAllocator.Deallocate example_shape s p) 16 8 = (Ok p, s') /\
           fst s' = fst s) /\
      (forall p s1,
         PoolAllocator.Allocate example_shape s 16 8 = (Ok p, s1) ->
         fst (PoolAllocator.Deallocate example_shape s1 p) = fst s /\
         PoolAllocator.free_list 5
           (snd (PoolAllocator.Deallocate example_shape s1 p))
           (PoolAllocator.freeBlocks_
              (fst (PoolAllocator.Deallocate example_shape s1 p)))
         = PoolAllocator.free_list 5 (snd s) (PoolAllocator.freeBlocks_ (fst s)) /\
         forall x, x < p \/ p + sizeof_ptr <= x ->
                   bytes (snd (PoolAllocator.Deallocate example_shape s1 p)) x
                   = bytes (snd s) x).
Proof.
  example_pool example_shape.
  exact (PoolAllocator_round_trips example_shape 4096 64 0 blank_heap
           Hwf Har Hadj Hfit).
Defined.

(** A trace on the example pool, read through the statements above: two
    blocks live, two free, the block at 4112 untouched by the release of the
    one at 4096, and teardown refused. *)
Example example_pool_trace :
  match PoolAllocator.ctor example_shape 64 4096 blank_heap with
  | Fail _ => False
  | Ok s0 =>
      match PoolAllocator.run example_shape
              [PoolAllocator.OpAllocate; PoolAllocator.OpAllocate;
               PoolAllocator.OpAllocate; PoolAllocator.OpDeallocate 4096] s0 []
      with
      | None => False
      | Some (s, live) =>
          live = [4128; 4112] /\
          PoolAllocator.free_list 5 (snd s) (PoolAllocator.freeBlocks_ (fst s))
          = [4096; 4144] /\
          PoolAllocator.dtor (fst s) = Fail LeakAtTeardown /\
          fst (PoolAllocator.Allocate example_shape s 16 8) = Ok 4096
      end
  end.
Proof. vm_compute. repeat split; reflexivity. Qed.

(** ** Header-aware alignment as plain alignment *)

Lemma header_adjustment_exact_least address alignment headerSize o :
  in_u64 address -> in_u64 alignment -> in_u64 headerSize ->
  is_pow2 alignment = true ->
  headerSize <= o -> (address + o) mod alignment = 0 ->
  header_adjustment_exact address alignment headerSize <= o.
Proof.
  intros Ha Hal Hh Hp Ho Hoa.
  pose proof (header_adjustment_exact_facts address alignment headerSize
                Ha Hal Hh Hp) as Hf.
  cbv zeta in Hf. destruct Hf as [Hge [Hnn [Hub Hm]]].
  pose proof (alignment_pos alignment Hal Hp) as Hpos.
  set (e := header_adjustment_exact address alignment headerSize) in *.
  destruct (Z_le_gt_dec e o) as [Hle|Hgt]; [exact Hle|]. exfalso.
  apply Z.mod_divide in Hoa; [|lia]. apply Z.mod_divide in Hm; [|lia].
  destruct Hoa as [c1 Hc1]. destruct Hm as [c2 Hc2].
  assert (Hd : e - o = (c2 - c1) * alignment) by lia.
  assert (Hc : 1 <= c2 - c1) by nia. nia.
Qed.

(** X14.  When nothing wraps ([address + headerSize + alignment <= 2^64]),
    aligning with room for a header is aligning the address just past the
    header: [AlignForwardWithHeader(address, alignment, headerSize)] equals
    [AlignForward(address + headerSize, alignment)]. *)
Theorem AlignForwardWithHeader_as_AlignForward address alignment headerSize :
  in_u64 address -> in_u64 alignment -> in_u64 headerSize ->
  is_pow2 alignment = true ->
  address + headerSize + alignment <= u64_modulus ->
  Allocator.AlignForwardWithHeader address alignment headerSize
  = Allocator.AlignForward (address + headerSize) alignment.
Proof.
  intros Ha Hal Hh Hp Hb.
  pose proof (alignment_pos alignment Hal Hp) as Hpos.
  pose proof (header_adjustment_exact_facts address alignment headerSize
                Ha Hal Hh Hp) as Hf.
  cbv zeta in Hf. destruct Hf as [Hge [Hnn [Hub Hm]]].
  assert (Hah : in_u64 (address + headerSize)) by (unfold in_u64 in *; lia).
  destruct (AlignForward_value (address + headerSize) alignment Hah Hal Hp)
    as [adj' [Hr' [Hm' [Hmin' [_ [Hf' _]]]]]].
  unfold Allocator.AlignForwardWithHeader.
  rewrite (header_adjustment_code address alignment headerSize Ha Hal Hh Hp).
  cbn [bind]. rewrite Hf'. f_equal.
  set (e := header_adjustment_exact address alignment headerSize) in *.
  assert (H1 : e <= headerSize + adj').
  { apply header_adjustment_exact_least; try assumption; [lia|].
    rewrite Z.add_assoc. exact Hm'. }
  assert (H2 : adj' <= e - headerSize).
  { apply Hmin'; [lia|].
    replace (address + headerSize + (e - headerSize)) with (address + e) by lia.
    exact Hm. }
  unfold in_u64 in *.
  rewrite (wrap64_small e) by (unfold in_u64; lia).
  f_equal. lia.
Qed.

Lemma AlignForwardWithHeader_as_AlignForward_witness :
  Allocator.AlignForwardWithHeader 4099 8 9
  = Allocator.AlignForward (4099 + 9) 8.
Proof.
  apply (AlignForwardWithHeader_as_AlignForward 4099 8 9).
  - unfold in_u64. rewrite u64_modulus_eq. lia.
  - unfold in_u64. rewrite u64_modulus_eq. lia.
  - unfold in_u64. rewrite u64_modulus_eq. lia.
  - reflexivity.
  - rewrite u64_modulus_eq. lia.
Defined.

(** ** Pointers the pool did not hand out *)

(** X13.  [Deallocate] does not check that its argument is a block the pool
    handed out.  In any state a pool reaches and for any pointer [p] whose 8
    bytes lie inside the arena (a free block, the middle of a live block),
    after [Deallocate(p)] the next [Allocate] returns [p] and puts the
    previous free-list head back. *)
Theorem PoolAllocator_Deallocate_unchecked T mem size adj h :
  wf_shape T -> valid_arena mem size ->
  Allocator.CalculateAlignForwardAdjustment mem (alignofT T) = Ok adj ->
  1 <= (size - adj) / sizeofT T ->
  exists s0,
    PoolAllocator.ctor T size mem h = Ok s0 /\
    forall ops s live,
      PoolAllocator.run T ops s0 [] = Some (s, live) ->
      forall p,
        store_in_arena mem size p ->
        exists s',
          PoolAllocator.Allocate T (PoolAllocator.Deallocate T s p)
            (sizeofT T) (alignofT T) = (Ok p, s') /\
          PoolAllocator.freeBlocks_ (fst s') = PoolAllocator.freeBlocks_ (fst s) /\
          snd s' = store_ptr (snd s) p (PoolAllocator.freeBlocks_ (fst s)).
Proof.
  intros Hwf Har Hadj Hfit.
  destruct (reached T mem size adj h Hwf Har Hadj Hfit)
    as [s0 [Hc [_ [_ [_ Hreach]]]]].
  destruct (first_slot_range T mem size adj Hwf Har Hadj Hfit) as [Hb Hub].
  pose proof Hwf as [Hs _]. pose proof Har as [Hm _].
  exists s0. split; [exact Hc|]. intros ops s live Hrun p [Hp1 Hp2].
  destruct (Hreach ops s live Hrun) as [fl Hr].
  assert (Hfb : in_u64 (PoolAllocator.freeBlocks_ (fst s))).
  { destruct Hr as [Hseg [Hperm _]].
    apply (lseg_head_range (snd s) fl); [exact Hseg|]. intros x Hx.
    apply (slot_u64 T (mem + adj) _ Hs Hb Hub).
    apply (Permutation_in _ Hperm). apply in_or_app. left. exact Hx. }
  destruct s as [a hp]. cbn [fst snd] in *.
  unfold PoolAllocator.Deallocate, PoolAllocator.Allocate.
  cbn [PoolAllocator.freeBlocks_ PoolAllocator.base].
  rewrite !Z.eqb_refl. cbn [andb neko_assert].
  assert (Hpn : (p =? nullptr) = false)
    by (apply Z.eqb_neq; unfold nullptr; lia).
  rewrite Hpn.
  eexists. split; [reflexivity|]. cbn [fst snd PoolAllocator.freeBlocks_].
  split; [apply load_store_same; exact Hfb|reflexivity].
Qed.

Lemma PoolAllocator_Deallocate_unchecked_witness :
  exists s0 s',
    PoolAllocator.ctor example_shape 64 4096 blank_heap = Ok s0 /\
    PoolAllocator.Allocate example_shape
      (PoolAllocator.Deallocate example_shape s0 4104)
      (sizeofT example_shape) (alignofT example_shape) = (Ok 4104, s') /\
    PoolAllocator.freeBlocks_ (fst s') = PoolAllocator.freeBlocks_ (fst s0).
Proof.
  assert (Hwf : wf_shape example_shape)
    by (unfold wf_shape, in_u64, sizeof_ptr; rewrite u64_modulus_eq;
        cbn [sizeofT alignofT example_shape]; repeat split; try lia; reflexivity).
  assert (Har : valid_arena 4096 64)
    by (unfold valid_arena; rewrite u64_modulus_eq; lia).
  assert (Hadj : Allocator.CalculateAlignForwardAdjustment 4096
                   (alignofT example_shape) = Ok 0) by reflexivity.
  assert (Hfit : 1 <= (64 - 0) / sizeofT example_shape) by (cbn; lia).
  destruct (PoolAllocator_Deallocate_unchecked example_shape 4096 64 0 blank_heap
              Hwf Har Hadj Hfit) as [s0 [Hc Hun]].
  assert (Hin : store_in_arena 4096 64 4104)
    by (unfold store_in_arena, sizeof_ptr; lia).
  destruct (Hun [] s0 [] eq_refl 4104 Hin) as [s' [Ha [Hfb _]]].
  exists s0, s'. exact (conj Hc (conj Ha Hfb)).
Defined.
